(** * The Zyte extraction client: sequential and concurrent fetchers

    A shallow embedding of [vianu/fraudcrawler/src/zyteapi.py].  The Python
    code is effectful: it talks to the network, sleeps, logs, mutates local
    variables inside [try]/[except] blocks and loops with [while].  It is
    embedded in a state-and-exception monad whose state holds the outside
    world, the trace of observable events and the local variables of the
    running function. *)

From Stdlib Require Import List String ZArith Lia Bool.
Import ListNotations.

#[local] Open Scope string_scope.
#[local] Open Scope Z_scope.
#[local] Open Scope list_scope.

(** ** JSON values, as produced by [response.json()] and consumed by [json=] *)

#[local] Set Warnings "-register-all".

(** Python's [None] is [JNull]: it is what [json()] gives for [null], and
    the absence marker of the concurrent fetcher. *)
Inductive JValue : Type :=
| JNull
| JBool (b : bool)
| JInt (n : Z)
| JFloat (repr : string)
| JStr (s : string)
| JArr (l : list JValue)
| JObj (d : list (string * JValue)).

(** A Python [dict] with string keys: insertion ordered, keys unique. *)
Definition dict : Type := list (string * JValue).

Fixpoint dict_get (k : string) (d : dict) : option JValue :=
  match d with
  | [] => None
  | (k', v) :: d' => if String.eqb k k' then Some v else dict_get k d'
  end.

(** [d[k] = v]: overwrite in place when the key is there, append otherwise. *)
Fixpoint dict_set (k : string) (v : JValue) (d : dict) : dict :=
  match d with
  | [] => [(k, v)]
  | (k', v') :: d' =>
      if String.eqb k k' then (k, v) :: d' else (k', v') :: dict_set k v d'
  end.

(** [{**d, **e}]: the entries of [e] are written into [d] from left to right. *)
Definition dict_update (d e : dict) : dict :=
  fold_left (fun acc kv => dict_set (fst kv) (snd kv) acc) e d.

(** ** Exceptions, requests, responses *)

(** The subclasses of Python's [Exception] that the client can meet.  What
    is not an [Exception] (a cancellation, a keyboard interrupt) is not
    caught by the client and is left out. *)
Inductive Exn : Type :=
| ConnectionError
| TimeoutError
| HTTPError (status : Z)
| JSONDecodeError
| TypeError
| ValueError
| UnboundLocalError.

Record Request : Type := mkRequest {
  req_url : string;
  req_auth : string * string;
  req_json : JValue;
  req_timeout : option Z
}.

(** [json_body] is what [response.json()] evaluates to; [None] when the body
    does not parse. *)
Record Response : Type := mkResponse {
  status_code : Z;
  text : string;
  json_body : option JValue
}.

(** What one HTTP call comes back with: the library raises, or a response. *)
Inductive Outcome : Type :=
| Raised (e : Exn)
| Responded (r : Response).

(** ** Observable events *)

Inductive Level : Type := DEBUG | INFO | WARNING | ERROR.

(** The messages the module logs, one constructor per format string. *)
Inductive LogMsg : Type :=
| MsgFetching (n : nat)
| MsgAttempt (url : string) (attempt : Z)
| MsgFetchedUrl (url : string)
| MsgStatusFailed (url : string) (status : Z) (body : string)
| MsgException (url : string) (e : Exn)
| MsgRetrying (delay : Z)
| MsgAllFailed (url : string)
| MsgFetched (n : nat).

Inductive Event : Type :=
| EvLog (lvl : Level) (msg : LogMsg)
| EvPost (r : Request)
| EvSleep (secs : Z)
| EvProgress (n : Z).

(** ** The client object *)

Record ZyteAPIClient : Type := mkClient {
  _auth : string * string;
  _aiohttp_auth : string * string;
  _max_retries : Z;
  _retry_delay : Z;
  _async_limit_per_host : Z
}.

Definition _endpoint : string := "https://api.zyte.com/v1/extract".

Definition _config : dict :=
  [ ("javascript", JBool false);
    ("browserHtml", JBool false);
    ("screenshot", JBool false);
    ("productOptions", JObj [("extractFrom", JStr "httpResponseBody")]);
    ("httpResponseBody", JBool true);
    ("geolocation", JStr "CH");
    ("viewport", JObj [("width", JInt 1280); ("height", JInt 1080)]);
    ("actions", JArr []);
    ("product", JBool true) ].

Definition _requests_timeout : Z := 10.

(** [HTTPBasicAuth(api_key, "")] and [aiohttp.BasicAuth(api_key)] both are the
    key as user name with an empty password. *)
Definition __init__ (api_key : string)
    (max_retries retry_delay async_limit_per_host : Z) : ZyteAPIClient :=
  {| _auth := (api_key, "");
     _aiohttp_auth := (api_key, "");
     _max_retries := max_retries;
     _retry_delay := retry_delay;
     _async_limit_per_host := async_limit_per_host |}.

(** The constructor's defaults: [max_retries=1, retry_delay=10,
    async_limit_per_host=5]. *)
Definition default_client (api_key : string) : ZyteAPIClient :=
  __init__ api_key 1 10 5.

(** ** The monad of procedures *)

(** A procedure runs on a state and ends in one of four ways: it returns, it
    raises, it is suspended for ever on an [await] that nothing will wake
    up, or the model ran out of loop fuel. *)
Inductive Res (S A : Type) : Type :=
| Ok (a : A) (s : S)
| Raise (e : Exn) (s : S)
| Blocked (s : S)
| OutOfFuel.

Arguments Ok {S A} a s.
Arguments Raise {S A} e s.
Arguments Blocked {S A} s.
Arguments OutOfFuel {S A}.

Definition M (S A : Type) : Type := S -> Res S A.

Definition ret {S A} (a : A) : M S A := fun s => Ok a s.

Definition bind {S A B} (m : M S A) (k : A -> M S B) : M S B :=
  fun s =>
    match m s with
    | Ok a s' => k a s'
    | Raise e s' => Raise e s'
    | Blocked s' => Blocked s'
    | OutOfFuel => OutOfFuel
    end.

Definition raise {S A} (e : Exn) : M S A := fun s => Raise e s.

(** [try: m / except Exception as e: h e]. *)
Definition try_except {S A} (m : M S A) (h : Exn -> M S A) : M S A :=
  fun s =>
    match m s with
    | Raise e s' => h e s'
    | r => r
    end.

Declare Scope proc_scope.
Delimit Scope proc_scope with proc.
Notation "x <- m ;; k" := (bind m (fun x => k))
  (at level 61, m at next level, right associativity) : proc_scope.
Notation "m ;; k" := (bind m (fun _ => k))
  (at level 61, right associativity) : proc_scope.
#[local] Open Scope proc_scope.

(** How a loop body hands control back: [break], or fall through to the
    next test of the loop condition. *)
Inductive LoopCtl : Type := Break | Continue.

(** [while cond: body / else: orelse].  The [else] suite runs when the
    condition is found false, not when the body breaks. *)
Fixpoint while_else {S} (fuel : nat) (cond : S -> bool)
    (body : M S LoopCtl) (orelse : M S unit) : M S unit :=
  fun s =>
    if cond s then
      match fuel with
      | O => OutOfFuel
      | Datatypes.S fuel' =>
          match body s with
          | Ok Break s' => Ok tt s'
          | Ok Continue s' => while_else fuel' cond body orelse s'
          | Raise e s' => Raise e s'
          | Blocked s' => Blocked s'
          | OutOfFuel => OutOfFuel
          end
      end
    else orelse s.

(** [for x in xs: body x]. *)
Fixpoint for_each {S A} (xs : list A) (body : A -> M S unit) : M S unit :=
  match xs with
  | [] => ret tt
  | x :: xs' => body x ;; for_each xs' body
  end.

(** ** The world, the state and the primitive effects *)

(** Global state: the outside world the HTTP calls act on, and the trace of
    events in the order they happened. *)
Record Env (W : Type) : Type := mkEnv {
  world : W;
  trace : list Event
}.
Arguments mkEnv {W} world trace.
Arguments world {W} e.
Arguments trace {W} e.

(** The state a procedure runs on: the global state and the local variables
    [L] of the function being executed. *)
Record St (W L : Type) : Type := mkSt {
  env : Env W;
  locals : L
}.
Arguments mkSt {W L} env locals.
Arguments env {W L} s.
Arguments locals {W L} s.

(** ** Queues *)

(** An [asyncio.Queue]: the items waiting, and the count of items put and
    not yet marked done (what [join()] waits on). *)
Record Queue (A : Type) : Type := mkQueue {
  q_items : list A;
  q_unfinished : Z
}.
Arguments mkQueue {A} q_items q_unfinished.
Arguments q_items {A} q.
Arguments q_unfinished {A} q.

(** [put(x)]: the queue is unbounded, the item goes to the back. *)
Definition queue_put {A} (x : A) (q : Queue A) : Queue A :=
  mkQueue (q_items q ++ [x]) (q_unfinished q + 1).

(** [get()]: the item at the front; [None] when there is nothing to take and
    the caller has to wait. *)
Definition queue_get {A} (q : Queue A) : option (A * Queue A) :=
  match q_items q with
  | [] => None
  | x :: rest => Some (x, mkQueue rest (q_unfinished q))
  end.

(** [task_done()]: [None] stands for the [ValueError] raised when it is
    called more often than items were put. *)
Definition queue_task_done {A} (q : Queue A) : option (Queue A) :=
  if q_unfinished q <=? 0 then None
  else Some (mkQueue (q_items q) (q_unfinished q - 1)).

(** The two queue objects that the parameters of [async_get_details] name.
    An item of the input queue is a URL or the close sentinel [None]. *)
Record Queues : Type := mkQueues {
  queue_in : Queue (option string);
  queue_out : Queue JValue
}.

Section Client.

(** The network: what a request comes back with, and how the world moves on. *)
Variable W : Type.
Variable net : Request -> W -> Outcome * W.

Definition Proc (L A : Type) : Type := M (St W L) A.

Definition emit {L} (ev : Event) : Proc L unit :=
  fun s => Ok tt (mkSt (mkEnv (world (env s)) (trace (env s) ++ [ev])) (locals s)).

Definition log {L} (lvl : Level) (msg : LogMsg) : Proc L unit :=
  emit (EvLog lvl msg).

(** A call: the callee runs on a frame of its own, the caller's locals are
    back when it returns or raises. *)
Definition call {L L' A} (frame : L') (m : Proc L' A) : Proc L A :=
  fun s =>
    match m (mkSt (env s) frame) with
    | Ok a s' => Ok a (mkSt (env s') (locals s))
    | Raise e s' => Raise e (mkSt (env s') (locals s))
    | Blocked s' => Blocked (mkSt (env s') (locals s))
    | OutOfFuel => OutOfFuel
    end.

(** One HTTP POST: the request goes out, the world answers. *)
Definition http_post {L} (r : Request) : Proc L Response :=
  fun s =>
    let t := trace (env s) ++ [EvPost r] in
    match net r (world (env s)) with
    | (Raised e, w') => Raise e (mkSt (mkEnv w' t) (locals s))
    | (Responded resp, w') => Ok resp (mkSt (mkEnv w' t) (locals s))
    end.

(** [response.json()]. *)
Definition response_json {L} (r : Response) : Proc L JValue :=
  match json_body r with
  | Some v => ret v
  | None => raise JSONDecodeError
  end.

(** aiohttp's [response.raise_for_status()]: raises when [status >= 400]. *)
Definition raise_for_status {L} (r : Response) : Proc L unit :=
  if 400 <=? status_code r then raise (HTTPError (status_code r)) else ret tt.

(** [target[k] = v]; only a dict takes a string subscript. *)
Definition setitem {L} (target : JValue) (k : string) (v : JValue)
    : Proc L JValue :=
  match target with
  | JObj d => ret (JObj (dict_set k v d))
  | _ => raise TypeError
  end.

(** [time.sleep(secs)] raises [ValueError] on a negative length. *)
Definition time_sleep {L} (secs : Z) : Proc L unit :=
  if secs <? 0 then raise ValueError else emit (EvSleep secs).

(** [await asyncio.sleep(secs)] returns at once on a negative length. *)
Definition asyncio_sleep {L} (secs : Z) : Proc L unit :=
  emit (EvSleep secs).

(** ** The sequential fetcher *)

(** Locals of [get_details] that are assigned more than once. *)
Record GetDetailsFrame : Type := mkGetDetailsFrame {
  gd_attempts : Z;
  gd_products : list JValue
}.

Definition gd_get_attempts : Proc GetDetailsFrame Z :=
  fun s => Ok (gd_attempts (locals s)) s.

Definition gd_set_attempts (a : Z) : Proc GetDetailsFrame unit :=
  fun s => Ok tt (mkSt (env s) (mkGetDetailsFrame a (gd_products (locals s)))).

Definition gd_get_products : Proc GetDetailsFrame (list JValue) :=
  fun s => Ok (gd_products (locals s)) s.

Definition gd_set_products (p : list JValue) : Proc GetDetailsFrame unit :=
  fun s => Ok tt (mkSt (env s) (mkGetDetailsFrame (gd_attempts (locals s)) p)).

(** The request of the sequential path: [requests.post(self._endpoint,
    auth=self._auth, json={"url": url, **self._config},
    timeout=self._requests_timeout)]. *)
Definition get_details_request (c : ZyteAPIClient) (url : string) : Request :=
  {| req_url := _endpoint;
     req_auth := _auth c;
     req_json := JObj (dict_update [("url", JStr url)] _config);
     req_timeout := Some _requests_timeout |}.

(** [attempts += 1], then the wait when attempts remain. *)
Definition gd_count_and_wait (c : ZyteAPIClient) : Proc GetDetailsFrame unit :=
  attempts <- gd_get_attempts ;;
  gd_set_attempts (attempts + 1) ;;
  attempts <- gd_get_attempts ;;
  if attempts <? _max_retries c then
    log WARNING (MsgRetrying (_retry_delay c)) ;;
    time_sleep (_retry_delay c)
  else ret tt.

(** The body of the [while] loop of [get_details]: one [try] statement. *)
Definition get_details_attempt (c : ZyteAPIClient) (url : string)
    : Proc GetDetailsFrame LoopCtl :=
  try_except
    (attempts <- gd_get_attempts ;;
     log DEBUG (MsgAttempt url (attempts + 1)) ;;
     response <- http_post (get_details_request c url) ;;
     if status_code response =? 200 then
       product_data <- response_json response ;;
       product_data <- setitem product_data "url" (JStr url) ;;
       products <- gd_get_products ;;
       gd_set_products (products ++ [product_data]) ;;
       log DEBUG (MsgFetchedUrl url) ;;
       ret Break
     else
       log ERROR (MsgStatusFailed url (status_code response) (text response)) ;;
       gd_count_and_wait c ;;
       ret Continue)
    (fun e =>
       log ERROR (MsgException url e) ;;
       gd_count_and_wait c ;;
       ret Continue).

(** The body of the [for] loop: the retry loop of one URL, then the
    progress bar. *)
Definition get_details_url (c : ZyteAPIClient) (url : string)
    : Proc GetDetailsFrame unit :=
  gd_set_attempts 0 ;;
  while_else (Z.to_nat (_max_retries c))
    (fun s => gd_attempts (locals s) <? _max_retries c)
    (get_details_attempt c url)
    (log ERROR (MsgAllFailed url)) ;;
  emit (EvProgress 1).

Definition get_details {L} (c : ZyteAPIClient) (urls : list string)
    : Proc L (list JValue) :=
  call (mkGetDetailsFrame 0 [])
    (log INFO (MsgFetching (List.length urls)) ;;
     gd_set_products [] ;;
     for_each urls (get_details_url c) ;;
     products <- gd_get_products ;;
     log INFO (MsgFetched (List.length products)) ;;
     ret products).

(** ** The concurrent fetcher *)

(** [await queue_in.get()]: with nothing in the queue the worker is
    suspended. *)
Definition queue_in_get : Proc Queues (option string) :=
  fun s =>
    match queue_get (queue_in (locals s)) with
    | None => Blocked s
    | Some (x, q) => Ok x (mkSt (env s) (mkQueues q (queue_out (locals s))))
    end.

(** [queue_in.task_done()]. *)
Definition queue_in_task_done : Proc Queues unit :=
  fun s =>
    match queue_task_done (queue_in (locals s)) with
    | None => Raise ValueError s
    | Some q => Ok tt (mkSt (env s) (mkQueues q (queue_out (locals s))))
    end.

(** [await queue_out.put(product)]. *)
Definition queue_out_put (product : JValue) : Proc Queues unit :=
  fun s =>
    Ok tt (mkSt (env s)
             (mkQueues (queue_in (locals s))
                (queue_put product (queue_out (locals s))))).

(** The request of the concurrent path: [config = deepcopy(self._config);
    config["url"] = url; session.post(url=self._endpoint, json=config,
    auth=self._aiohttp_auth)].  No [timeout] is passed. *)
Definition _aiohttp_post_request (c : ZyteAPIClient) (url : string) : Request :=
  {| req_url := _endpoint;
     req_auth := _aiohttp_auth c;
     req_json := JObj (dict_set "url" (JStr url) _config);
     req_timeout := None |}.

Definition _aiohttp_post {L} (c : ZyteAPIClient) (url : string)
    : Proc L JValue :=
  response <- http_post (_aiohttp_post_request c url) ;;
  raise_for_status response ;;
  json_ <- response_json response ;;
  ret json_.

(** Locals of [_async_get_details_for_url]; [fu_product = None] is
    [product] not bound yet. *)
Record ForUrlFrame : Type := mkForUrlFrame {
  fu_attempts : Z;
  fu_product : option JValue
}.

Definition fu_get_attempts : Proc ForUrlFrame Z :=
  fun s => Ok (fu_attempts (locals s)) s.

Definition fu_set_attempts (a : Z) : Proc ForUrlFrame unit :=
  fun s => Ok tt (mkSt (env s) (mkForUrlFrame a (fu_product (locals s)))).

Definition fu_set_product (p : JValue) : Proc ForUrlFrame unit :=
  fun s => Ok tt (mkSt (env s) (mkForUrlFrame (fu_attempts (locals s)) (Some p))).

(** Reading [product]: [UnboundLocalError] when it was never assigned. *)
Definition fu_get_product : Proc ForUrlFrame JValue :=
  fun s =>
    match fu_product (locals s) with
    | Some p => Ok p s
    | None => Raise UnboundLocalError s
    end.

(** [attempts += 1], then the wait when attempts remain. *)
Definition fu_count_and_wait (c : ZyteAPIClient) : Proc ForUrlFrame unit :=
  attempts <- fu_get_attempts ;;
  fu_set_attempts (attempts + 1) ;;
  attempts <- fu_get_attempts ;;
  if attempts <? _max_retries c then
    log WARNING (MsgRetrying (_retry_delay c)) ;;
    asyncio_sleep (_retry_delay c)
  else ret tt.

(** The body of the [while] loop of [_async_get_details_for_url]. *)
Definition _async_get_details_attempt (c : ZyteAPIClient) (url : string)
    : Proc ForUrlFrame LoopCtl :=
  fu_set_product JNull ;;
  try_except
    (attempts <- fu_get_attempts ;;
     log DEBUG (MsgAttempt url (attempts + 1)) ;;
     product <- _aiohttp_post c url ;;
     fu_set_product product ;;
     product <- setitem product "url" (JStr url) ;;
     fu_set_product product ;;
     fu_count_and_wait c ;;
     ret Continue)
    (fun e =>
       log ERROR (MsgException url e) ;;
       fu_count_and_wait c ;;
       ret Continue).

Definition _async_get_details_for_url {L} (c : ZyteAPIClient) (url : string)
    : Proc L JValue :=
  call (mkForUrlFrame 0 None)
    (fu_set_attempts 0 ;;
     while_else (Z.to_nat (_max_retries c))
       (fun s => fu_attempts (locals s) <? _max_retries c)
       (_async_get_details_attempt c url)
       (ret tt) ;;
     fu_get_product).

(** The body of the [while True] loop of [async_get_details]. *)
Definition async_get_details_item (c : ZyteAPIClient) : Proc Queues LoopCtl :=
  url <- queue_in_get ;;
  match url with
  | None =>
      queue_in_task_done ;;
      ret Break
  | Some url =>
      product <- _async_get_details_for_url c url ;;
      queue_out_put product ;;
      queue_in_task_done ;;
      ret Continue
  end.

(** One worker, run until it returns; [fuel] bounds the number of items it
    may take from the queue. *)
Definition async_get_details (fuel : nat) (c : ZyteAPIClient)
    : Proc Queues unit :=
  while_else fuel (fun _ => true) (async_get_details_item c) (ret tt).

End Client.

Arguments emit {W L} ev _.
Arguments log {W L} lvl msg _.
Arguments call {W L L' A} frame m _.
Arguments http_post {W} net {L} r _.
Arguments response_json {W L} r.
Arguments raise_for_status {W L} r.
Arguments setitem {W L} target k v.
Arguments time_sleep {W L} secs.
Arguments asyncio_sleep {W L} secs.
Arguments gd_get_attempts {W} _.
Arguments gd_set_attempts {W} a _.
Arguments gd_get_products {W} _.
Arguments gd_set_products {W} p _.
Arguments gd_count_and_wait {W} c.
Arguments get_details_attempt {W} net c url.
Arguments get_details_url {W} net c url.
Arguments get_details {W} net {L} c urls.
Arguments queue_in_get {W} _.
Arguments queue_in_task_done {W} _.
Arguments queue_out_put {W} product _.
Arguments _aiohttp_post {W} net {L} c url.
Arguments fu_get_attempts {W} _.
Arguments fu_set_attempts {W} a _.
Arguments fu_set_product {W} p _.
Arguments fu_get_product {W} _.
Arguments fu_count_and_wait {W} c.
Arguments _async_get_details_attempt {W} net c url.
Arguments _async_get_details_for_url {W} net {L} c url.
Arguments async_get_details_item {W} net c.
Arguments async_get_details {W} net fuel c.

(** ** Concrete worlds *)

(** A scripted network: the calls are answered in order by the outcomes of
    the script, and by a connection error once the script is used up. *)
Definition scripted (r : Request) (w : list Outcome) : Outcome * list Outcome :=
  match w with
  | [] => (Raised ConnectionError, [])
  | o :: w' => (o, w')
  end.

(** A network that answers every call in the same way. *)
Definition constantly (o : Outcome) (r : Request) (w : unit) : Outcome * unit :=
  (o, tt).

Definition http (status : Z) (body : JValue) : Outcome :=
  Responded (mkResponse status "" (Some body)).

Definition start {W} (w : W) : St W unit := mkSt (mkEnv w []) tt.

Definition start_queues {W} (w : W) (urls : list (option string))
    : St W Queues :=
  mkSt (mkEnv w [])
    (mkQueues (mkQueue urls (Z.of_nat (List.length urls))) (mkQueue [] 0)).

(** ** Observations on a trace *)

(** The HTTP calls of a trace, in order: the invocations of the single-shot
    request executor. *)
Fixpoint posts (t : list Event) : list Request :=
  match t with
  | [] => []
  | EvPost r :: t' => r :: posts t'
  | _ :: t' => posts t'
  end.

(** The retry delays waited, in order. *)
Fixpoint sleeps (t : list Event) : list Z :=
  match t with
  | [] => []
  | EvSleep d :: t' => d :: sleeps t'
  | _ :: t' => sleeps t'
  end.

Definition opt_list {A} (o : option A) : list A :=
  match o with Some a => [a] | None => [] end.

(** A record tagged with [url]: a dict whose ["url"] entry is that URL. *)
Definition tagged (url : string) (v : JValue) : Prop :=
  exists d, v = JObj d /\ dict_get "url" d = Some (JStr url).

(** ** What one call amounts to in each mode *)

(** Sequential mode: the record that [get_details] appends for an outcome,
    if any.  Only status 200 with a dict for a body makes one. *)
Definition seq_record (url : string) (o : Outcome) : option JValue :=
  match o with
  | Raised _ => None
  | Responded r =>
      if status_code r =? 200 then
        match json_body r with
        | Some (JObj d) => Some (JObj (dict_set "url" (JStr url) d))
        | _ => None
        end
      else None
  end.

(** Sequential mode: the error logged for an outcome that makes no record. *)
Definition seq_failure_log (url : string) (o : Outcome) : Event :=
  match o with
  | Raised e => EvLog ERROR (MsgException url e)
  | Responded r =>
      if status_code r =? 200 then
        match json_body r with
        | None => EvLog ERROR (MsgException url JSONDecodeError)
        | Some _ => EvLog ERROR (MsgException url TypeError)
        end
      else EvLog ERROR (MsgStatusFailed url (status_code r) (text r))
  end.

(** Concurrent mode: the exception that the [except] clause catches for an
    outcome, if any. *)
Definition async_caught (o : Outcome) : option Exn :=
  match o with
  | Raised e => Some e
  | Responded r =>
      if 400 <=? status_code r then Some (HTTPError (status_code r))
      else match json_body r with
           | None => Some JSONDecodeError
           | Some (JObj _) => None
           | Some _ => Some TypeError
           end
  end.

(** Concurrent mode: what [product] is bound to at the end of an attempt
    with that outcome. *)
Definition async_value (url : string) (o : Outcome) : JValue :=
  match o with
  | Raised _ => JNull
  | Responded r =>
      if 400 <=? status_code r then JNull
      else match json_body r with
           | None => JNull
           | Some (JObj d) => JObj (dict_set "url" (JStr url) d)
           | Some v => v
           end
  end.

Definition async_failure_log (url : string) (o : Outcome) : list Event :=
  match async_caught o with
  | Some e => [EvLog ERROR (MsgException url e)]
  | None => []
  end.

(** The events of the wait that follows an attempt, [attempts] being the
    counter after its increment. *)
Definition retry_wait (c : ZyteAPIClient) (attempts : Z) : list Event :=
  if attempts <? _max_retries c
  then [EvLog WARNING (MsgRetrying (_retry_delay c)); EvSleep (_retry_delay c)]
  else [].

Section Specification.

Variable W : Type.
Variable net : Request -> W -> Outcome * W.
Variable c : ZyteAPIClient.

(** The world after [k] calls with the same request. *)
Fixpoint world_after (k : nat) (r : Request) (w : W) : W :=
  match k with
  | O => w
  | S k' => world_after k' r (snd (net r w))
  end.

(** The sequential fetcher in the words of the specification: attempt the
    URL up to [n] times; on success keep the record and stop retrying; with
    all attempts exhausted there is no record. *)
Fixpoint spec_fetch_url (n : nat) (url : string) (w : W)
    : option JValue * W :=
  match n with
  | O => (None, w)
  | S n' =>
      let (o, w') := net (get_details_request c url) w in
      match seq_record url o with
      | Some r => (Some r, w')
      | None => spec_fetch_url n' url w'
      end
  end.

(** The number of calls that makes: up to and including the first success. *)
Fixpoint spec_calls (n : nat) (url : string) (w : W) : nat :=
  match n with
  | O => O
  | S n' =>
      let (o, w') := net (get_details_request c url) w in
      match seq_record url o with
      | Some _ => 1
      | None => S (spec_calls n' url w')
      end
  end.

(** Each URL of the list with the record it eventually yields, [None] for a
    URL whose attempts are exhausted. *)
Fixpoint spec_fetch_all (urls : list string) (w : W)
    : list (string * option JValue) * W :=
  match urls with
  | [] => ([], w)
  | url :: urls' =>
      let (r, w') := spec_fetch_url (Z.to_nat (_max_retries c)) url w in
      let (rs, w'') := spec_fetch_all urls' w' in
      ((url, r) :: rs, w'')
  end.

(** The calls that makes, URL after URL. *)
Fixpoint spec_posts (urls : list string) (w : W) : list Request :=
  match urls with
  | [] => []
  | url :: urls' =>
      let n := Z.to_nat (_max_retries c) in
      repeat (get_details_request c url) (spec_calls n url w)
        ++ spec_posts urls' (snd (spec_fetch_url n url w))
  end.

(** The records of the URLs that succeeded, exhausted URLs left out. *)
Definition records (outs : list (string * option JValue)) : list JValue :=
  flat_map (fun p => opt_list (snd p)) outs.

Definition succeeded (outs : list (string * option JValue)) : list string :=
  flat_map (fun p => match snd p with Some _ => [fst p] | None => [] end) outs.

Definition exhausted (outs : list (string * option JValue)) : list string :=
  flat_map (fun p => match snd p with Some _ => [] | None => [fst p] end) outs.

(** The outcome of the last of [n] calls for [url], [n >= 1]. *)
Definition last_outcome (n : nat) (url : string) (w : W) : Outcome :=
  fst (net (_aiohttp_post_request c url)
         (world_after (Nat.pred n) (_aiohttp_post_request c url) w)).

(** The items a worker puts on the output queue for a list of URLs. *)
Fixpoint spec_async_all (urls : list string) (w : W) : list JValue * W :=
  match urls with
  | [] => ([], w)
  | url :: urls' =>
      let n := Z.to_nat (_max_retries c) in
      let v := async_value url (last_outcome n url w) in
      let (vs, w') :=
        spec_async_all urls' (world_after n (_aiohttp_post_request c url) w) in
      (v :: vs, w')
  end.

(** ** A pool of workers sharing the queues *)

(** Where a worker coroutine stands between two steps of the event loop:
    at one of its [await]s, or finished. *)
Inductive Worker : Type :=
| AtGet
| AtPost (url : string) (attempts : Z)
| AtSleep (url : string) (attempts : Z) (product : JValue)
| Exited
| Crashed (e : Exn).

Record Pool : Type := mkPool {
  p_env : Env W;
  p_queues : Queues;
  p_workers : list Worker
}.

(** The head of the retry loop for [url], with [product] as bound so far
    ([None]: not bound).  Either the next request goes out, or the loop is
    over: [return product], [queue_out.put], [queue_in.task_done], and back
    to [queue_in.get]. *)
Definition loop_head (e : Env W) (q : Queues) (url : string) (attempts : Z)
    (product : option JValue) : Env W * Queues * Worker :=
  if attempts <? _max_retries c then
    (mkEnv (world e)
       (trace e ++ [EvLog DEBUG (MsgAttempt url (attempts + 1));
                    EvPost (_aiohttp_post_request c url)]),
     q, AtPost url attempts)
  else
    match product with
    | None => (e, q, Crashed UnboundLocalError)
    | Some p =>
        let q_out := queue_put p (queue_out q) in
        match queue_task_done (queue_in q) with
        | None => (e, mkQueues (queue_in q) q_out, Crashed ValueError)
        | Some q_in => (e, mkQueues q_in q_out, AtGet)
        end
    end.

(** One step of one worker, from an [await] to the next; [None] when it
    cannot move: it waits on an empty queue, or it is finished. *)
Definition worker_step (e : Env W) (q : Queues) (wk : Worker)
    : option (Env W * Queues * Worker) :=
  match wk with
  | AtGet =>
      match queue_get (queue_in q) with
      | None => None
      | Some (None, q_in) =>
          match queue_task_done q_in with
          | None => Some (e, mkQueues q_in (queue_out q), Crashed ValueError)
          | Some q_in' => Some (e, mkQueues q_in' (queue_out q), Exited)
          end
      | Some (Some url, q_in) =>
          Some (loop_head e (mkQueues q_in (queue_out q)) url 0 None)
      end
  | AtPost url attempts =>
      let (o, w') := net (_aiohttp_post_request c url) (world e) in
      let e' := mkEnv w' (trace e ++ async_failure_log url o
                                  ++ retry_wait c (attempts + 1)) in
      if attempts + 1 <? _max_retries c
      then Some (e', q, AtSleep url (attempts + 1) (async_value url o))
      else Some (loop_head e' q url (attempts + 1) (Some (async_value url o)))
  | AtSleep url attempts product =>
      Some (loop_head e q url attempts (Some product))
  | Exited => None
  | Crashed _ => None
  end.

(** Worker [i] of the pool takes a step. *)
Definition pool_step_at (i : nat) (p : Pool) : option Pool :=
  match nth_error (p_workers p) i with
  | None => None
  | Some wk =>
      match worker_step (p_env p) (p_queues p) wk with
      | None => None
      | Some (e, q, wk') =>
          Some (mkPool e q
                  (firstn i (p_workers p) ++ wk' :: skipn (Datatypes.S i) (p_workers p)))
      end
  end.

(** The event loop lets any worker that can move take the next step. *)
Definition pool_step (p p' : Pool) : Prop :=
  exists i, pool_step_at i p = Some p'.

Inductive pool_steps : Pool -> Pool -> Prop :=
| pool_steps_refl p : pool_steps p p
| pool_steps_step p p' p'' :
    pool_step p p' -> pool_steps p' p'' -> pool_steps p p''.

(** The run that follows a schedule, one worker index per step; an index
    whose worker cannot move is passed over. *)
Fixpoint pool_run (schedule : list nat) (p : Pool) : Pool :=
  match schedule with
  | [] => p
  | i :: rest =>
      match pool_step_at i p with
      | Some p' => pool_run rest p'
      | None => pool_run rest p
      end
  end.

Definition posting (wk : Worker) : bool :=
  match wk with AtPost _ _ => true | _ => false end.

(** The number of extraction requests in flight. *)
Definition in_flight (p : Pool) : nat :=
  List.length (filter posting (p_workers p)).

(** Nothing can move any more. *)
Definition stuck (p : Pool) : Prop :=
  forall i, pool_step_at i p = None.

End Specification.

Arguments mkPool {W} p_env p_queues p_workers.
Arguments p_env {W} p.
Arguments p_queues {W} p.
Arguments p_workers {W} p.
Arguments in_flight {W} p.
Arguments stuck {W} net c p.
Arguments pool_step {W} net c p p'.
Arguments pool_steps {W} net c _ _.
Arguments pool_step_at {W} net c i p.
Arguments pool_run {W} net c schedule p.
Arguments worker_step {W} net c e q wk.
Arguments loop_head {W} c e q url attempts product.
Arguments world_after {W} net k r w.
Arguments spec_fetch_url {W} net c n url w.
Arguments spec_calls {W} net c n url w.
Arguments spec_fetch_all {W} net c urls w.
Arguments spec_posts {W} net c urls w.
Arguments last_outcome {W} net c n url w.
Arguments spec_async_all {W} net c urls w.

(** The client with another value for the per-host limit. *)
Definition with_async_limit (c : ZyteAPIClient) (limit : Z) : ZyteAPIClient :=
  mkClient (_auth c) (_aiohttp_auth c) (_max_retries c) (_retry_delay c) limit.

(** ** Example inputs *)

Definition demo_url : string := "https://a.test".
Definition other_url : string := "https://b.test".
Definition demo_body : dict := [("name", JStr "x"); ("url", JStr "https://elsewhere.test")].

(** Two attempts, no delay, the default limit. *)
Definition client_two_attempts : ZyteAPIClient := __init__ "key" 2 0 5.

(** One attempt, at most one request per host at a time. *)
Definition client_limit_one : ZyteAPIClient := __init__ "key" 1 10 1.

(** A pool of [n] workers at their first [get], on an input queue holding
    [items], each counted as put. *)
Definition pool_of {W} (w : W) (n : nat) (items : list (option string))
    : Pool W :=
  mkPool (mkEnv w [])
    (mkQueues (mkQueue items (Z.of_nat (List.length items))) (mkQueue [] 0))
    (repeat AtGet n).

(** ** Counting the workers of a pool *)

Definition count {A} (f : A -> bool) (l : list A) : nat :=
  List.length (filter f l).

(** A worker that has not finished. *)
Definition live (wk : Worker) : bool :=
  match wk with
  | AtGet | AtPost _ _ | AtSleep _ _ _ => true
  | Exited | Crashed _ => false
  end.

(** A worker that holds an item it took from the input queue and has not
    marked done yet. *)
Definition busy (wk : Worker) : bool :=
  match wk with
  | AtPost _ _ | AtSleep _ _ _ => true
  | AtGet | Exited | Crashed _ => false
  end.

Definition crashed (wk : Worker) : bool :=
  match wk with Crashed _ => true | _ => false end.

(** The input queue is closed with a sentinel for every live worker: URLs,
    then at least as many sentinels as there are workers still running; the
    queue has counted every item waiting or in work; no worker has crashed. *)
Definition closed_per_worker {W} (p : Pool W) : Prop :=
  exists urls k,
    q_items (queue_in (p_queues p)) = map Some urls ++ repeat None k
    /\ (count live (p_workers p) <= k)%nat
    /\ Z.of_nat (List.length (q_items (queue_in (p_queues p))))
       + Z.of_nat (count busy (p_workers p))
       <= q_unfinished (queue_in (p_queues p))
    /\ count crashed (p_workers p) = 0%nat.

(** ** A measure of the work a pool has left *)

(** The steps a worker can still take on the URL it holds. *)
Definition worker_measure (c : ZyteAPIClient) (wk : Worker) : nat :=
  match wk with
  | AtPost _ attempts => 2 * Z.to_nat (_max_retries c - attempts) + 1
  | AtSleep _ attempts _ => 2 * Z.to_nat (_max_retries c - attempts) + 2
  | AtGet | Exited | Crashed _ => 0
  end.

Definition pool_measure {W} (c : ZyteAPIClient) (p : Pool W) : nat :=
  List.length (q_items (queue_in (p_queues p)))
    * (2 * Z.to_nat (_max_retries c) + 2)
  + list_sum (map (worker_measure c) (p_workers p)).

(** A pool of one worker. *)
Definition pool_at {W} (t : Env W * Queues * Worker) : Pool W :=
  mkPool (fst (fst t)) (snd (fst t)) [snd t].

(** States to start a single attempt from. *)
Definition start_get_details {W} (w : W) : St W GetDetailsFrame :=
  mkSt (mkEnv w []) (mkGetDetailsFrame 0 []).

Definition start_for_url {W} (w : W) : St W ForUrlFrame :=
  mkSt (mkEnv w []) (mkForUrlFrame 0 None).

(** Ten URLs, for the pipeline scenario of the specification. *)
Definition ten_urls : list string :=
  map (fun d => String.append "https://shop.test/" d)
    ["0"; "1"; "2"; "3"; "4"; "5"; "6"; "7"; "8"; "9"].

(** Round robin over [n] workers, [rounds] times. *)
Definition round_robin (n rounds : nat) : list nat :=
  List.concat (repeat (seq 0 n) rounds).

(** ** More observations on a trace *)

(** The updates of the progress bar. *)
Fixpoint progress (t : list Event) : list Z :=
  match t with
  | [] => []
  | EvProgress n :: t' => n :: progress t'
  | _ :: t' => progress t'
  end.

(** The URLs logged as fetched, and those logged as failed for good. *)
Fixpoint fetched_urls (t : list Event) : list string :=
  match t with
  | [] => []
  | EvLog _ (MsgFetchedUrl url) :: t' => url :: fetched_urls t'
  | _ :: t' => fetched_urls t'
  end.

Fixpoint failed_urls (t : list Event) : list string :=
  match t with
  | [] => []
  | EvLog _ (MsgAllFailed url) :: t' => url :: failed_urls t'
  | _ :: t' => failed_urls t'
  end.

Section Traces.

Variable W : Type.
Variable net : Request -> W -> Outcome * W.
Variable c : ZyteAPIClient.

(** The events of the retry loop of [get_details] for one URL, with [k]
    attempts left and the counter at [attempts]. *)
Fixpoint retry_events (k : nat) (url : string) (attempts : Z) (w : W)
    : list Event :=
  match k with
  | O => [EvLog ERROR (MsgAllFailed url)]
  | S k' =>
      let (o, w') := net (get_details_request c url) w in
      [EvLog DEBUG (MsgAttempt url (attempts + 1));
       EvPost (get_details_request c url)]
      ++ match seq_record url o with
         | Some _ => [EvLog DEBUG (MsgFetchedUrl url)]
         | None =>
             seq_failure_log url o
               :: retry_wait c (attempts + 1)
               ++ retry_events k' url (attempts + 1) w'
         end
  end.

(** The events of the [for] loop of [get_details]. *)
Fixpoint batch_events (urls : list string) (w : W) : list Event :=
  match urls with
  | [] => []
  | url :: urls' =>
      let n := Z.to_nat (_max_retries c) in
      retry_events n url 0 w
        ++ EvProgress 1
        :: batch_events urls' (snd (spec_fetch_url net c n url w))
  end.

(** The number of calls made for each URL of a batch. *)
Fixpoint spec_call_counts (urls : list string) (w : W) : list nat :=
  match urls with
  | [] => []
  | url :: urls' =>
      let n := Z.to_nat (_max_retries c) in
      spec_calls net c n url w
        :: spec_call_counts urls' (snd (spec_fetch_url net c n url w))
  end.

End Traces.

Arguments retry_events {W} net c k url attempts w.
Arguments batch_events {W} net c urls w.
Arguments spec_call_counts {W} net c urls w.

(** ** Records and the bodies they come from *)

(** [rec] is the dict [body] with [url] injected: the ["url"] entry is the
    URL, every other entry is the body's, and at most one entry was added. *)
Definition injected (url : string) (body : dict) (rec : JValue) : Prop :=
  exists d,
    rec = JObj d
    /\ dict_get "url" d = Some (JStr url)
    /\ (forall k, k <> "url" -> dict_get k d = dict_get k body)
    /\ (List.length body <= List.length d <= S (List.length body))%nat.

(** The call was answered, with a status other than 200. *)
Definition answered_not_200 (o : Outcome) : bool :=
  match o with
  | Responded r => negb (status_code r =? 200)
  | Raised _ => false
  end.

(** ** Invariants of a pool *)

Definition is_exited (wk : Worker) : bool :=
  match wk with Exited => true | _ => false end.

(** The books of a pool of [n] workers started on [N] URLs and [n]
    sentinels: the input queue holds URLs and then one sentinel per worker
    still running; every URL is waiting, in work or answered on the output
    queue; the input queue has counted what is waiting or in work; no
    worker has crashed, and none exits while URLs are waiting. *)
Definition accounted {W} (n N : nat) (p : Pool W) : Prop :=
  exists urls k,
    q_items (queue_in (p_queues p)) = map Some urls ++ repeat None k
    /\ List.length (p_workers p) = n
    /\ count live (p_workers p) = k
    /\ count crashed (p_workers p) = 0%nat
    /\ (List.length (q_items (queue_out (p_queues p)))
        + count busy (p_workers p) + List.length urls = N)%nat
    /\ q_unfinished (queue_in (p_queues p)) =
         Z.of_nat (List.length (q_items (queue_in (p_queues p))))
         + Z.of_nat (count busy (p_workers p))
    /\ (urls <> [] -> count is_exited (p_workers p) = 0%nat).

(** A value that, when it is a record, is tagged with one of the URLs of
    [items]. *)
Definition tagged_from (items : list (option string)) (v : JValue) : Prop :=
  forall d, v = JObj d ->
            exists url, In (Some url) items
                        /\ dict_get "url" d = Some (JStr url).

(** A worker that works on a URL of [items], and holds a value from it. *)
Definition worker_from (items : list (option string)) (wk : Worker) : Prop :=
  match wk with
  | AtPost url _ => In (Some url) items
  | AtSleep url _ v => In (Some url) items /\ tagged_from items v
  | AtGet | Exited | Crashed _ => True
  end.

Definition well_tagged {W} (items : list (option string)) (p : Pool W) : Prop :=
  Forall (tagged_from items) (q_items (queue_out (p_queues p)))
  /\ incl (q_items (queue_in (p_queues p))) items
  /\ Forall (worker_from items) (p_workers p).

Definition is_sentinel (item : option string) : bool :=
  match item with None => true | Some _ => false end.

(** ** Proof tools *)

#[local] Arguments gd_count_and_wait : simpl never.
#[local] Arguments fu_count_and_wait : simpl never.
#[local] Arguments get_details_request : simpl never.
#[local] Arguments _aiohttp_post_request : simpl never.

(** Running the monad by hand. *)
Ltac run_proc :=
  unfold try_except, bind, ret, raise, log, emit, call; cbn.

(** Projections of queues and pools, and the counters on workers. *)
Ltac pool_simpl :=
  cbn [queue_in queue_out q_items q_unfinished p_env p_queues p_workers
       live busy crashed posting Nat.b2n List.length map app repeat fst snd] in *.

(** * Properties *)

(** ** Dicts and traces *)

Lemma dict_get_set_same k v d : dict_get k (dict_set k v d) = Some v.
Proof.
  induction d as [|[k' v'] d IH]; simpl.
  - now rewrite String.eqb_refl.
  - destruct (String.eqb k k') eqn:E; simpl; rewrite ?String.eqb_refl, ?E; auto.
Qed.

Lemma posts_app t1 t2 : posts (t1 ++ t2) = posts t1 ++ posts t2.
Proof.
  induction t1 as [|[] t1 IH]; simpl; auto. now rewrite IH.
Qed.

Lemma sleeps_app t1 t2 : sleeps (t1 ++ t2) = sleeps t1 ++ sleeps t2.
Proof.
  induction t1 as [|[] t1 IH]; simpl; auto. now rewrite IH.
Qed.

Lemma posts_retry_wait c a : posts (retry_wait c a) = [].
Proof. unfold retry_wait. now destruct (a <? _max_retries c). Qed.

Lemma sleeps_retry_wait c a :
  sleeps (retry_wait c a) =
    if a <? _max_retries c then [_retry_delay c] else [].
Proof. unfold retry_wait. now destruct (a <? _max_retries c). Qed.

Lemma posts_async_failure_log url o : posts (async_failure_log url o) = [].
Proof. unfold async_failure_log. now destruct (async_caught o). Qed.

Lemma sleeps_async_failure_log url o : sleeps (async_failure_log url o) = [].
Proof. unfold async_failure_log. now destruct (async_caught o). Qed.

Lemma seq_record_tagged url o r : seq_record url o = Some r -> tagged url r.
Proof.
  destruct o as [e|resp]; simpl; [discriminate|].
  destruct (status_code resp =? 200); [|discriminate].
  destruct (json_body resp) as [[]|]; try discriminate.
  intros [= <-]. eexists; split; [reflexivity|apply dict_get_set_same].
Qed.

Lemma async_value_tagged url o d :
  async_value url o = JObj d -> dict_get "url" d = Some (JStr url).
Proof.
  destruct o as [e|resp]; simpl; [discriminate|].
  destruct (400 <=? status_code resp); [discriminate|].
  destruct (json_body resp) as [[]|]; try discriminate.
  intros [= <-]. apply dict_get_set_same.
Qed.

Section Properties.

Variable W : Type.
Variable net : Request -> W -> Outcome * W.
Variable c : ZyteAPIClient.

(** ** The sequential fetcher *)

Lemma get_details_attempt_success url (s : St W GetDetailsFrame) o w' rec :
  net (get_details_request c url) (world (env s)) = (o, w') ->
  seq_record url o = Some rec ->
  get_details_attempt net c url s =
    Ok Break
      (mkSt (mkEnv w' (trace (env s) ++
                       [EvLog DEBUG (MsgAttempt url (gd_attempts (locals s) + 1));
                        EvPost (get_details_request c url);
                        EvLog DEBUG (MsgFetchedUrl url)]))
         (mkGetDetailsFrame (gd_attempts (locals s))
            (gd_products (locals s) ++ [rec]))).
Proof.
  intros Hnet Hrec.
  unfold get_details_attempt, http_post, gd_get_attempts; run_proc.
  rewrite Hnet. destruct o as [e|r]; cbn in Hrec; [discriminate|].
  destruct (status_code r =? 200); [|discriminate].
  unfold response_json. destruct (json_body r) as [[]|]; try discriminate.
  injection Hrec as <-. cbn. rewrite <- !app_assoc. reflexivity.
Qed.

Lemma gd_count_and_wait_run (s : St W GetDetailsFrame) :
  0 <= _retry_delay c ->
  gd_count_and_wait c s =
    Ok tt (mkSt (mkEnv (world (env s))
                   (trace (env s) ++ retry_wait c (gd_attempts (locals s) + 1)))
             (mkGetDetailsFrame (gd_attempts (locals s) + 1)
                (gd_products (locals s)))).
Proof.
  intros Hd. assert (Hs : (_retry_delay c <? 0) = false) by lia.
  destruct s as [[w t] [a ps]].
  unfold gd_count_and_wait, gd_get_attempts, gd_set_attempts, time_sleep,
    retry_wait; run_proc.
  destruct (_ <? _max_retries c); cbn; rewrite ?Hs; cbn;
    rewrite <- ?app_assoc, ?app_nil_r; reflexivity.
Qed.

Lemma get_details_attempt_failure url (s : St W GetDetailsFrame) o w' :
  0 <= _retry_delay c ->
  net (get_details_request c url) (world (env s)) = (o, w') ->
  seq_record url o = None ->
  get_details_attempt net c url s =
    Ok Continue
      (mkSt (mkEnv w' (trace (env s) ++
                       [EvLog DEBUG (MsgAttempt url (gd_attempts (locals s) + 1));
                        EvPost (get_details_request c url);
                        seq_failure_log url o] ++
                       retry_wait c (gd_attempts (locals s) + 1)))
         (mkGetDetailsFrame (gd_attempts (locals s) + 1)
            (gd_products (locals s)))).
Proof.
  intros Hd Hnet Hrec.
  unfold get_details_attempt, http_post, gd_get_attempts; run_proc.
  rewrite Hnet. destruct o as [e|r]; cbn in Hrec |- *.
  - rewrite gd_count_and_wait_run by assumption; cbn.
    rewrite <- !app_assoc. reflexivity.
  - destruct (status_code r =? 200).
    + unfold response_json.
      destruct (json_body r) as [[]|]; try discriminate; cbn;
        rewrite gd_count_and_wait_run by assumption; cbn;
        rewrite <- !app_assoc; reflexivity.
    + cbn. rewrite gd_count_and_wait_run by assumption; cbn.
      rewrite <- !app_assoc. reflexivity.
Qed.

Lemma spec_calls_pos n url w : (1 <= n)%nat -> (1 <= spec_calls net c n url w)%nat.
Proof.
  destruct n; [lia|]. intros _. simpl.
  destruct (net _ w) as [o w']. destruct (seq_record url o); lia.
Qed.

(** The retry loop of one URL does what the specification's retry does. *)
Lemma get_details_retry_loop url :
  0 <= _retry_delay c ->
  forall k fuel (s : St W GetDetailsFrame),
    (k <= fuel)%nat ->
    Z.to_nat (_max_retries c - gd_attempts (locals s)) = k ->
    exists a evs,
      while_else fuel (fun s => gd_attempts (locals s) <? _max_retries c)
        (get_details_attempt net c url) (log ERROR (MsgAllFailed url)) s =
        Ok tt
          (mkSt (mkEnv (snd (spec_fetch_url net c k url (world (env s))))
                   (trace (env s) ++ evs))
             (mkGetDetailsFrame a
                (gd_products (locals s) ++
                 opt_list (fst (spec_fetch_url net c k url (world (env s)))))))
      /\ posts evs =
           repeat (get_details_request c url)
             (spec_calls net c k url (world (env s)))
      /\ sleeps evs =
           repeat (_retry_delay c)
             (Nat.pred (spec_calls net c k url (world (env s)))).
Proof.
  intros Hd. induction k as [|k IH]; intros fuel s Hfuel Hk.
  - exists (gd_attempts (locals s)), [EvLog ERROR (MsgAllFailed url)].
    assert (Hc : (gd_attempts (locals s) <? _max_retries c) = false) by lia.
    destruct fuel; simpl; rewrite Hc; run_proc; rewrite app_nil_r;
      destruct s as [[w t] [a ps]]; auto.
  - assert (Hc : (gd_attempts (locals s) <? _max_retries c) = true) by lia.
    destruct fuel as [|fuel]; [lia|]. simpl. rewrite Hc.
    destruct (net (get_details_request c url) (world (env s))) as [o w'] eqn:Hnet.
    destruct (seq_record url o) as [rec|] eqn:Hrec.
    + rewrite (get_details_attempt_success _ _ _ _ _ Hnet Hrec).
      eexists _, _. split; [reflexivity|]. split; reflexivity.
    + rewrite (get_details_attempt_failure _ _ _ _ Hd Hnet Hrec).
      match goal with |- context [while_else fuel _ _ _ ?s1] =>
        destruct (IH fuel s1) as (a & evs & Hrun & Hposts & Hsleeps);
          [lia | cbn; lia |] end.
      rewrite Hrun. cbn [env locals world trace gd_attempts gd_products].
      eexists a, _. split; [rewrite <- app_assoc; reflexivity|].
      rewrite !posts_app, !sleeps_app, posts_retry_wait, sleeps_retry_wait.
      rewrite Hposts, Hsleeps. cbn [world env]. split.
      * destruct o as [e|r]; simpl; [reflexivity|].
        destruct (status_code r =? 200); [destruct (json_body r)|]; reflexivity.
      * assert (Hsl : sleeps [EvLog DEBUG (MsgAttempt url (gd_attempts (locals s) + 1));
                              EvPost (get_details_request c url);
                              seq_failure_log url o] = []).
        { destruct o as [e|r]; simpl; [reflexivity|].
          destruct (status_code r =? 200); [destruct (json_body r)|]; reflexivity. }
        rewrite Hsl. simpl.
        destruct (Z.ltb_spec (gd_attempts (locals s) + 1) (_max_retries c)).
        -- pose proof (spec_calls_pos k url w' ltac:(lia)).
           destruct (spec_calls net c k url w'); [lia|reflexivity].
        -- assert (k = 0%nat) by lia. subst k. reflexivity.
Qed.

Lemma get_details_url_run url (s : St W GetDetailsFrame) :
  0 <= _retry_delay c ->
  let n := Z.to_nat (_max_retries c) in
  exists a evs,
    get_details_url net c url s =
      Ok tt
        (mkSt (mkEnv (snd (spec_fetch_url net c n url (world (env s))))
                 (trace (env s) ++ evs))
           (mkGetDetailsFrame a
              (gd_products (locals s) ++
               opt_list (fst (spec_fetch_url net c n url (world (env s)))))))
    /\ posts evs =
         repeat (get_details_request c url)
           (spec_calls net c n url (world (env s))).
Proof.
  intros Hd n. unfold get_details_url, gd_set_attempts, bind.
  match goal with |- context [while_else _ _ _ _ ?s1] =>
    destruct (get_details_retry_loop url Hd n n s1) as (a & evs & Hrun & Hp & _);
      [lia | cbn; lia |] end.
  fold n. rewrite Hrun. unfold emit. cbn.
  exists a, (evs ++ [EvProgress 1]). split.
  - now rewrite <- app_assoc.
  - rewrite posts_app, Hp. cbn. now rewrite app_nil_r.
Qed.

Lemma get_details_for_each urls : 
  0 <= _retry_delay c ->
  forall s : St W GetDetailsFrame,
  exists a evs,
    for_each urls (get_details_url net c) s =
      Ok tt
        (mkSt (mkEnv (snd (spec_fetch_all net c urls (world (env s))))
                 (trace (env s) ++ evs))
           (mkGetDetailsFrame a
              (gd_products (locals s) ++
               records (fst (spec_fetch_all net c urls (world (env s)))))))
    /\ posts evs = spec_posts net c urls (world (env s)).
Proof.
  intros Hd. induction urls as [|url urls IH]; intros s.
  - exists (gd_attempts (locals s)), []. destruct s as [[w t] [a ps]]. cbn.
    now rewrite !app_nil_r.
  - cbn [for_each]. unfold bind.
    destruct (get_details_url_run url s Hd) as (a1 & evs1 & Hrun1 & Hp1).
    rewrite Hrun1.
    match goal with |- context [for_each _ _ ?s1] =>
      destruct (IH s1) as (a2 & evs2 & Hrun2 & Hp2) end.
    rewrite Hrun2. cbn [env locals world trace gd_products] in *.
    cbn [spec_fetch_all spec_posts].
    destruct (spec_fetch_url net c (Z.to_nat (_max_retries c)) url (world (env s)))
      as [r w1].
    cbn [fst snd] in *.
    destruct (spec_fetch_all net c urls w1) as [rs w2].
    cbn [fst snd] in *.
    exists a2, (evs1 ++ evs2). split.
    + unfold records at 2. cbn [flat_map snd]. fold (records rs).
      now rewrite <- !app_assoc.
    + now rewrite posts_app, Hp1, Hp2.
Qed.

(** [get_details] computes the records of the specification's fetcher. *)
Lemma get_details_run {L} urls (s : St W L) :
  0 <= _retry_delay c ->
  exists evs,
    get_details net c urls s =
      Ok (records (fst (spec_fetch_all net c urls (world (env s)))))
        (mkSt (mkEnv (snd (spec_fetch_all net c urls (world (env s))))
                 (trace (env s) ++ evs))
           (locals s))
    /\ posts evs = spec_posts net c urls (world (env s)).
Proof.
  intros Hd. unfold get_details, gd_set_products, gd_get_products. run_proc.
  match goal with |- context [for_each _ _ ?s1] =>
    destruct (get_details_for_each urls Hd s1) as (a & evs & Hrun & Hp) end.
  rewrite Hrun. cbn.
  eexists. split.
  - rewrite <- !app_assoc. reflexivity.
  - rewrite !posts_app, Hp. cbn. now rewrite app_nil_r.
Qed.


(** ** The concurrent fetcher *)

Lemma fu_count_and_wait_run (s : St W ForUrlFrame) :
  fu_count_and_wait c s =
    Ok tt (mkSt (mkEnv (world (env s))
                   (trace (env s) ++ retry_wait c (fu_attempts (locals s) + 1)))
             (mkForUrlFrame (fu_attempts (locals s) + 1)
                (fu_product (locals s)))).
Proof.
  destruct s as [[w t] [a p]].
  unfold fu_count_and_wait, fu_get_attempts, fu_set_attempts, asyncio_sleep,
    retry_wait; run_proc.
  destruct (_ <? _max_retries c); cbn;
    rewrite <- ?app_assoc, ?app_nil_r; reflexivity.
Qed.

(** One pass through the loop body: whatever the outcome, the counter goes
    up by one, [product] is rebound, and the loop goes on. *)
Lemma async_attempt_run url (s : St W ForUrlFrame) o w' :
  net (_aiohttp_post_request c url) (world (env s)) = (o, w') ->
  _async_get_details_attempt net c url s =
    Ok Continue
      (mkSt (mkEnv w' (trace (env s) ++
                       [EvLog DEBUG (MsgAttempt url (fu_attempts (locals s) + 1));
                        EvPost (_aiohttp_post_request c url)] ++
                       async_failure_log url o ++
                       retry_wait c (fu_attempts (locals s) + 1)))
         (mkForUrlFrame (fu_attempts (locals s) + 1)
            (Some (async_value url o)))).
Proof.
  intros Hnet. destruct s as [[w t] [a p]]. cbn in Hnet.
  unfold _async_get_details_attempt, _aiohttp_post, http_post,
    fu_get_attempts, fu_set_product, async_failure_log; run_proc.
  rewrite Hnet. destruct o as [e|r]; cbn.
  - rewrite fu_count_and_wait_run; cbn. now rewrite <- !app_assoc.
  - unfold raise_for_status. destruct (400 <=? status_code r); cbn.
    + rewrite fu_count_and_wait_run; cbn. now rewrite <- !app_assoc.
    + unfold response_json.
      destruct (json_body r) as [[]|]; cbn;
        rewrite fu_count_and_wait_run; cbn; now rewrite <- !app_assoc.
Qed.

Lemma last_outcome_S k url w :
  last_outcome net c (S (S k)) url w =
    last_outcome net c (S k) url
      (snd (net (_aiohttp_post_request c url) w)).
Proof. reflexivity. Qed.

(** The retry loop of the concurrent path: every remaining attempt is made,
    and [product] is what the last one left. *)
Lemma async_retry_loop url :
  forall k fuel (s : St W ForUrlFrame),
    (k <= fuel)%nat ->
    Z.to_nat (_max_retries c - fu_attempts (locals s)) = k ->
    exists evs,
      while_else fuel (fun s => fu_attempts (locals s) <? _max_retries c)
        (_async_get_details_attempt net c url) (ret tt) s =
        Ok tt
          (mkSt (mkEnv (world_after net k (_aiohttp_post_request c url)
                          (world (env s)))
                   (trace (env s) ++ evs))
             (mkForUrlFrame (fu_attempts (locals s) + Z.of_nat k)
                match k with
                | O => fu_product (locals s)
                | S _ => Some (async_value url
                                 (last_outcome net c k url (world (env s))))
                end))
      /\ posts evs = repeat (_aiohttp_post_request c url) k
      /\ sleeps evs = repeat (_retry_delay c) (Nat.pred k).
Proof.
  induction k as [|k IH]; intros fuel s Hfuel Hk.
  - exists [].
    assert (Hc : (fu_attempts (locals s) <? _max_retries c) = false) by lia.
    destruct s as [[w t] [a p]]. cbn in *.
    destruct fuel; simpl; rewrite Hc; unfold ret;
      rewrite app_nil_r, Z.add_0_r; auto.
  - assert (Hc : (fu_attempts (locals s) <? _max_retries c) = true) by lia.
    destruct fuel as [|fuel]; [lia|]. simpl while_else. cbv beta. rewrite Hc.
    destruct (net (_aiohttp_post_request c url) (world (env s)))
      as [o w'] eqn:Hnet.
    rewrite (async_attempt_run _ _ _ _ Hnet).
    match goal with |- context [while_else fuel _ _ _ ?s1] =>
      destruct (IH fuel s1) as (evs & Hrun & Hposts & Hsleeps);
        [lia | cbn; lia |] end.
    rewrite Hrun. cbn [env locals world trace fu_attempts fu_product].
    eexists. split; [|split].
    + rewrite <- app_assoc.
      replace (fu_attempts (locals s) + 1 + Z.of_nat k)
        with (fu_attempts (locals s) + Z.of_nat (S k)) by lia.
      cbn [world_after]. rewrite Hnet. cbn [snd].
      destruct k as [|k]; [|rewrite last_outcome_S, Hnet; reflexivity].
      unfold last_outcome. cbn [Nat.pred world_after]. rewrite Hnet.
      reflexivity.
    + rewrite !posts_app, posts_async_failure_log, posts_retry_wait, Hposts.
      reflexivity.
    + rewrite !sleeps_app, sleeps_async_failure_log, sleeps_retry_wait, Hsleeps.
      cbn [sleeps app Nat.pred].
      destruct (Z.ltb_spec (fu_attempts (locals s) + 1) (_max_retries c)).
      * destruct k; [lia|reflexivity].
      * assert (k = 0%nat) by lia. subst k. reflexivity.
Qed.

(** With at least one attempt allowed, [_async_get_details_for_url] makes
    them all and returns what the last one left in [product]. *)
Lemma async_get_details_for_url_run {L} url (s : St W L) :
  1 <= _max_retries c ->
  let n := Z.to_nat (_max_retries c) in
  exists evs,
    _async_get_details_for_url net c url s =
      Ok (async_value url (last_outcome net c n url (world (env s))))
        (mkSt (mkEnv (world_after net n (_aiohttp_post_request c url)
                        (world (env s)))
                 (trace (env s) ++ evs))
           (locals s))
    /\ posts evs = repeat (_aiohttp_post_request c url) n
    /\ sleeps evs = repeat (_retry_delay c) (Nat.pred n).
Proof.
  intros Hmax n.
  unfold _async_get_details_for_url, call, bind, fu_set_attempts.
  cbn [env locals fu_product].
  match goal with |- context [while_else _ _ _ _ ?s1] =>
    destruct (async_retry_loop url n n s1) as (evs & Hrun & Hp & Hs);
      [lia | cbn; lia |] end.
  fold n. rewrite Hrun. cbn [env locals world trace] in *.
  destruct n as [|n'] eqn:En; [lia|].
  unfold fu_get_product. cbn. eauto.
Qed.

(** With no attempt allowed the loop body never runs and [return product]
    finds [product] unbound. *)
Lemma async_get_details_for_url_unbound {L} url (s : St W L) :
  _max_retries c <= 0 ->
  _async_get_details_for_url net c url s = Raise UnboundLocalError s.
Proof.
  intros Hmax.
  assert (Hc : (0 <? _max_retries c) = false) by lia.
  assert (Hn : Z.to_nat (_max_retries c) = 0%nat) by lia.
  destruct s as [[w t] l].
  unfold _async_get_details_for_url, call, bind, fu_set_attempts.
  rewrite Hn. cbn. rewrite Hc. reflexivity.
Qed.


(** A worker on a queue that holds [urls] and then the close sentinel: it
    takes them all, puts one item per URL, takes the sentinel and returns. *)
Lemma async_get_details_run :
  1 <= _max_retries c ->
  forall urls fuel (s : St W Queues) rest,
    (List.length urls < fuel)%nat ->
    q_items (queue_in (locals s)) = map Some urls ++ None :: rest ->
    Z.of_nat (List.length urls) < q_unfinished (queue_in (locals s)) ->
    exists evs,
      async_get_details net fuel c s =
        Ok tt
          (mkSt (mkEnv (snd (spec_async_all net c urls (world (env s))))
                   (trace (env s) ++ evs))
             (mkQueues
                (mkQueue rest
                   (q_unfinished (queue_in (locals s))
                    - Z.of_nat (List.length urls) - 1))
                (mkQueue
                   (q_items (queue_out (locals s))
                    ++ fst (spec_async_all net c urls (world (env s))))
                   (q_unfinished (queue_out (locals s))
                    + Z.of_nat (List.length urls)))))
      /\ posts evs =
           flat_map (fun u => repeat (_aiohttp_post_request c u)
                                (Z.to_nat (_max_retries c))) urls.
Proof.
  intros Hmax. induction urls as [|url urls IH]; intros fuel s rest Hfuel Hq Hunf.
  - exists []. destruct fuel as [|fuel]; [cbn in Hfuel; lia|].
    destruct s as [[w t] [[items unf] [oitems ounf]]]. cbn in Hq, Hunf. subst items.
    assert (Hu : (unf <=? 0) = false) by lia.
    unfold async_get_details. cbn.
    unfold async_get_details_item, queue_in_get, queue_in_task_done,
      queue_get, queue_task_done; run_proc.
    rewrite Hu. cbn. rewrite !app_nil_r, Z.add_0_r.
    replace (unf - 0 - 1) with (unf - 1) by lia. auto.
  - destruct fuel as [|fuel]; [cbn in Hfuel; lia|].
    destruct s as [[w t] [[items unf] [oitems ounf]]]. cbn in Hq, Hunf. subst items.
    assert (Hu : (unf <=? 0) = false) by lia.
    unfold async_get_details. cbn [while_else].
    unfold async_get_details_item at 1, queue_in_get, queue_get, bind at 1.
    cbn [locals env queue_in queue_out q_items q_unfinished map app].
    unfold bind at 1.
    match goal with |- context [_async_get_details_for_url net c url ?s1] =>
      destruct (async_get_details_for_url_run url s1 Hmax)
        as (evs1 & Hrun1 & Hp1 & _) end.
    rewrite Hrun1.
    unfold queue_out_put, queue_in_task_done, queue_task_done, queue_put;
      run_proc.
    rewrite Hu.
    match goal with |- context [while_else fuel _ _ _ ?s1] =>
      destruct (IH fuel s1 rest) as (evs2 & Hrun2 & Hp2);
        [cbn in Hfuel; lia | reflexivity
        | cbn [locals queue_in q_unfinished List.length] in *; lia |] end.
    unfold async_get_details, ret in Hrun2. rewrite Hrun2.
    cbn [env locals world trace queue_in queue_out q_items q_unfinished
         spec_async_all].
    destruct (spec_async_all net c urls
                (world_after net (Z.to_nat (_max_retries c))
                   (_aiohttp_post_request c url) w)) as [vs w2].
    cbn [fst snd].
    exists (evs1 ++ evs2). split.
    + rewrite <- !app_assoc. cbn [app].
      replace (unf - 1 - Z.of_nat (List.length urls) - 1)
        with (unf - Z.of_nat (List.length (url :: urls)) - 1)
        by (cbn [List.length]; lia).
      replace (ounf + 1 + Z.of_nat (List.length urls))
        with (ounf + Z.of_nat (List.length (url :: urls)))
        by (cbn [List.length]; lia).
      reflexivity.
    + rewrite posts_app, Hp1, Hp2. reflexivity.
Qed.

Lemma spec_async_all_length urls w :
  List.length (fst (spec_async_all net c urls w)) = List.length urls.
Proof.
  revert w. induction urls as [|u urls IH]; intros w; [reflexivity|].
  cbn [spec_async_all]. specialize (IH (world_after net (Z.to_nat (_max_retries c))
                   (_aiohttp_post_request c u) w)).
  destruct (spec_async_all net c urls _); cbn in *. now rewrite IH.
Qed.




(** ** What the specification's fetcher says about one URL *)

Lemma spec_fetch_url_exhausted n url w :
  fst (spec_fetch_url net c n url w) = None ->
  spec_calls net c n url w = n.
Proof.
  revert w. induction n as [|n IH]; intros w; cbn; [reflexivity|].
  destruct (net _ w) as [o w']. destruct (seq_record url o); [discriminate|].
  intros H. now rewrite IH.
Qed.

Lemma spec_fetch_url_fetched n url w r :
  fst (spec_fetch_url net c n url w) = Some r ->
  exists k, (k < n)%nat /\
    seq_record url
      (fst (net (get_details_request c url)
              (world_after net k (get_details_request c url) w))) = Some r.
Proof.
  revert w. induction n as [|n IH]; intros w; cbn; [discriminate|].
  destruct (net _ w) as [o w'] eqn:Hnet.
  destruct (seq_record url o) eqn:Hrec.
  - intros [= <-]. exists 0%nat. split; [lia|]. cbn. now rewrite Hnet.
  - intros H. destruct (IH _ H) as (k & Hk & Hr). exists (S k).
    split; [lia|]. cbn. now rewrite Hnet.
Qed.

Lemma spec_fetch_all_urls urls w :
  map fst (fst (spec_fetch_all net c urls w)) = urls.
Proof.
  revert w. induction urls as [|u urls IH]; intros w; cbn; [reflexivity|].
  destruct (spec_fetch_url net c _ u w) as [r w1].
  specialize (IH w1). destruct (spec_fetch_all net c urls w1). cbn in *.
  now rewrite IH.
Qed.



Lemma spec_fetch_all_tagged urls w :
  Forall2 tagged (succeeded (fst (spec_fetch_all net c urls w)))
    (records (fst (spec_fetch_all net c urls w))).
Proof.
  revert w. induction urls as [|u urls IH]; intros w; cbn; [constructor|].
  destruct (spec_fetch_url net c _ u w) as [r w1] eqn:Hf.
  specialize (IH w1). destruct (spec_fetch_all net c urls w1) as [rs w2].
  cbn in *. destruct r as [r|]; cbn; [|assumption].
  constructor; [|assumption].
  assert (Hr : fst (spec_fetch_url net c (Z.to_nat (_max_retries c)) u w) = Some r)
    by now rewrite Hf.
  destruct (spec_fetch_url_fetched _ _ _ _ Hr) as (k & _ & Hk).
  eapply seq_record_tagged; eassumption.
Qed.

(** When every call for the URLs fails, every URL gets the full budget. *)
Lemma spec_posts_all_fail urls w :
  Forall (fun url => forall w', seq_record url
             (fst (net (get_details_request c url) w')) = None) urls ->
  spec_posts net c urls w =
    flat_map (fun url => repeat (get_details_request c url)
                           (Z.to_nat (_max_retries c))) urls
  /\ records (fst (spec_fetch_all net c urls w)) = [].
Proof.
  intros Hall. revert w. induction Hall as [|u urls Hu Hall IH]; intros w.
  - split; reflexivity.
  - assert (Hnone : forall n w0, fst (spec_fetch_url net c n u w0) = None).
    { induction n as [|n IHn]; intros w0; cbn; [reflexivity|].
      specialize (Hu w0). destruct (net _ w0) as [o w']. cbn in Hu.
      rewrite Hu. apply IHn. }
    cbn [spec_posts spec_fetch_all flat_map].
    rewrite (spec_fetch_url_exhausted _ _ _ (Hnone _ _)).
    specialize (Hnone (Z.to_nat (_max_retries c)) w).
    destruct (spec_fetch_url net c _ u w) as [r w1]. cbn in Hnone. subst r.
    destruct (IH w1) as [IH1 IH2]. cbn [snd]. rewrite IH1.
    destruct (spec_fetch_all net c urls w1) as [rs w2]. cbn in *.
    split; [reflexivity|assumption].
Qed.


(** ** The claims on the two fetchers *)


(** C2. Retry bound: when every call for the URLs of a batch fails, the
    sequential path issues exactly [max_retries] requests for each URL, one
    URL after the other; the concurrent path issues exactly [max_retries]
    requests for a URL whatever the calls come back with, so also when they
    all fail.  [retry_delay >= 0] is the retry policy's invariant. *)
Theorem C2_retry_bound {L} (urls : list string) (url : string) (s : St W L) :
  1 <= _max_retries c ->
  0 <= _retry_delay c ->
  Forall (fun url => forall w, seq_record url
            (fst (net (get_details_request c url) w)) = None) urls ->
  (exists s',
     get_details net c urls s = Ok [] s'
     /\ posts (trace (env s')) =
          posts (trace (env s))
            ++ flat_map (fun url => repeat (get_details_request c url)
                                      (Z.to_nat (_max_retries c))) urls)
  /\ (exists v s',
        _async_get_details_for_url net c url s = Ok v s'
        /\ posts (trace (env s')) =
             posts (trace (env s))
               ++ repeat (_aiohttp_post_request c url)
                    (Z.to_nat (_max_retries c))).
Proof.
  intros Hmax Hd Hfail. split.
  - destruct (get_details_run urls s Hd) as (evs & Hrun & Hp).
    destruct (spec_posts_all_fail urls (world (env s)) Hfail) as [Hposts Hrecs].
    rewrite Hrecs in Hrun. eexists. split; [exact Hrun|]. cbn.
    now rewrite posts_app, Hp, Hposts.
  - destruct (async_get_details_for_url_run url s Hmax) as (evs & Hrun & Hp & _).
    eexists _, _. split; [exact Hrun|]. cbn. now rewrite posts_app, Hp.
Qed.





(** The part of C6 that holds: every request of the sequential path carries
    the timeout of 10, and a call that times out is a failed attempt like
    any other, in both paths. *)
Lemma get_details_request_timeout url :
  req_timeout (get_details_request c url) = Some 10.
Proof. reflexivity. Qed.

Lemma timed_out_call_consumes_an_attempt url
    (sg : St W GetDetailsFrame) (sa : St W ForUrlFrame) wg wa :
  0 <= _retry_delay c ->
  net (get_details_request c url) (world (env sg)) = (Raised TimeoutError, wg) ->
  net (_aiohttp_post_request c url) (world (env sa)) = (Raised TimeoutError, wa) ->
  (exists s', get_details_attempt net c url sg = Ok Continue s'
              /\ gd_attempts (locals s') = gd_attempts (locals sg) + 1
              /\ gd_products (locals s') = gd_products (locals sg))
  /\ (exists s', _async_get_details_attempt net c url sa = Ok Continue s'
                 /\ fu_attempts (locals s') = fu_attempts (locals sa) + 1
                 /\ fu_product (locals s') = Some JNull).
Proof.
  intros Hd Hg Ha. split.
  - eexists. split; [eapply get_details_attempt_failure; eauto|]. auto.
  - eexists. split; [eapply async_attempt_run; eauto|]. auto.
Qed.

(** The requests of the concurrent path carry no timeout at all. *)
Lemma async_requests_without_timeout {L} url (s : St W L) :
  1 <= _max_retries c ->
  exists v s',
    _async_get_details_for_url net c url s = Ok v s'
    /\ map req_timeout (posts (trace (env s'))) =
         map req_timeout (posts (trace (env s)))
           ++ repeat None (Z.to_nat (_max_retries c)).
Proof.
  intros Hmax.
  destruct (async_get_details_for_url_run url s Hmax) as (evs & Hrun & Hp & _).
  eexists _, _. split; [exact Hrun|]. cbn.
  now rewrite posts_app, map_app, Hp, map_repeat.
Qed.

(** C9. A successful attempt of the concurrent path still counts: the loop
    body ends with the counter one higher and with the loop going on, not
    left, and when attempts remain the retry delay is waited; the function
    returns only after all [max_retries] requests and the delays between
    them.  The sequential path leaves its loop at once on a success, the
    counter untouched and nothing waited. *)
Theorem C9_concurrent_success_still_counts {L} (url : string)
    (sa : St W ForUrlFrame) (sg : St W GetDetailsFrame) (s : St W L)
    (ra rg : Response) (da dg : dict) (wa wg : W) :
  1 <= _max_retries c ->
  net (_aiohttp_post_request c url) (world (env sa)) = (Responded ra, wa) ->
  status_code ra < 400 -> json_body ra = Some (JObj da) ->
  net (get_details_request c url) (world (env sg)) = (Responded rg, wg) ->
  status_code rg = 200 -> json_body rg = Some (JObj dg) ->
  (exists s',
     _async_get_details_attempt net c url sa = Ok Continue s'
     /\ fu_attempts (locals s') = fu_attempts (locals sa) + 1
     /\ fu_product (locals s') = Some (JObj (dict_set "url" (JStr url) da))
     /\ sleeps (trace (env s')) =
          sleeps (trace (env sa))
            ++ (if fu_attempts (locals sa) + 1 <? _max_retries c
                then [_retry_delay c] else []))
  /\ (exists v s',
        _async_get_details_for_url net c url s = Ok v s'
        /\ posts (trace (env s')) =
             posts (trace (env s))
               ++ repeat (_aiohttp_post_request c url)
                    (Z.to_nat (_max_retries c))
        /\ sleeps (trace (env s')) =
             sleeps (trace (env s))
               ++ repeat (_retry_delay c) (Z.to_nat (_max_retries c - 1)))
  /\ (exists s',
        get_details_attempt net c url sg = Ok Break s'
        /\ gd_attempts (locals s') = gd_attempts (locals sg)
        /\ sleeps (trace (env s')) = sleeps (trace (env sg))).
Proof.
  intros Hmax Hna Hsta Hba Hng Hstg Hbg.
  assert (Hok : (400 <=? status_code ra) = false) by lia.
  split; [|split].
  - rewrite (async_attempt_run _ _ _ _ Hna).
    eexists. split; [reflexivity|].
    cbn [env locals trace fu_attempts fu_product].
    rewrite !sleeps_app, sleeps_async_failure_log, sleeps_retry_wait.
    cbn [sleeps app async_value]. rewrite Hok, Hba. auto.
  - destruct (async_get_details_for_url_run url s Hmax) as (evs & Hrun & Hp & Hs).
    eexists _, _. split; [exact Hrun|]. cbn.
    rewrite posts_app, sleeps_app, Hp, Hs. split; [reflexivity|].
    do 2 f_equal. lia.
  - eexists. split.
    + eapply get_details_attempt_success; [exact Hng|].
      cbn. rewrite Hstg, Z.eqb_refl, Hbg. reflexivity.
    + cbn. split; [reflexivity|]. rewrite sleeps_app. cbn. now rewrite app_nil_r.
Qed.

(** C10. Last attempt wins in the concurrent path: what
    [_async_get_details_for_url] returns is what the last of its
    [max_retries] attempts left in [product], whatever the earlier attempts
    gave.  When that last call raises, answers with a status of 400 or
    more, or has a body that does not parse, the absence marker is returned,
    also when an earlier attempt had fetched a record. *)
Theorem C10_last_attempt_wins {L} (url : string) (s : St W L) :
  1 <= _max_retries c ->
  let final :=
    last_outcome net c (Z.to_nat (_max_retries c)) url (world (env s)) in
  exists s',
    _async_get_details_for_url net c url s = Ok (async_value url final) s'
    /\ ((forall r, final = Responded r ->
                   400 <= status_code r \/ json_body r = None) ->
        _async_get_details_for_url net c url s = Ok JNull s').
Proof.
  intros Hmax final.
  destruct (async_get_details_for_url_run url s Hmax) as (evs & Hrun & _).
  fold final in Hrun. eexists. split; [exact Hrun|].
  intros Hfail. rewrite Hrun. f_equal.
  destruct final as [e|r]; [reflexivity|]. cbn.
  destruct (Z.leb_spec 400 (status_code r)) as [Hge|Hlt]; [reflexivity|].
  destruct (Hfail r eq_refl) as [H|H]; [lia|now rewrite H].
Qed.


(** ** The pool of workers *)

Lemma worker_step_ignores_limit limit e q wk :
  worker_step net (with_async_limit c limit) e q wk = worker_step net c e q wk.
Proof. destruct c; reflexivity. Qed.

Lemma pool_step_at_ignores_limit limit i p :
  pool_step_at net (with_async_limit c limit) i p = pool_step_at net c i p.
Proof.
  unfold pool_step_at. destruct (nth_error (p_workers p) i); [|reflexivity].
  now rewrite worker_step_ignores_limit.
Qed.

Lemma async_get_details_ignores_limit limit fuel s :
  async_get_details net fuel (with_async_limit c limit) s
  = async_get_details net fuel c s.
Proof. destruct c; reflexivity. Qed.

(** A worker at [get] that finds the close sentinel at the front of the
    queue: it takes it, marks it done and exits.  The sentinel is gone from
    the queue, nothing is put back, and no other worker is touched. *)
Lemma sentinel_step i (p : Pool W) rest :
  nth_error (p_workers p) i = Some AtGet ->
  q_items (queue_in (p_queues p)) = None :: rest ->
  0 < q_unfinished (queue_in (p_queues p)) ->
  pool_step_at net c i p =
    Some (mkPool (p_env p)
            (mkQueues
               (mkQueue rest (q_unfinished (queue_in (p_queues p)) - 1))
               (queue_out (p_queues p)))
            (firstn i (p_workers p) ++ Exited :: skipn (S i) (p_workers p))).
Proof.
  intros Hw Hq Hunf. unfold pool_step_at. rewrite Hw.
  unfold worker_step, queue_get. rewrite Hq.
  unfold queue_task_done. cbn [q_unfinished q_items].
  assert (Hu : (q_unfinished (queue_in (p_queues p)) <=? 0) = false) by lia.
  now rewrite Hu.
Qed.

(** A worker at [get] cannot move while the queue is empty, and a worker
    that has exited never moves again. *)
Lemma blocked_on_empty_queue i (p : Pool W) :
  nth_error (p_workers p) i = Some AtGet ->
  q_items (queue_in (p_queues p)) = [] ->
  pool_step_at net c i p = None.
Proof.
  intros Hw Hq. unfold pool_step_at. rewrite Hw.
  unfold worker_step, queue_get. now rewrite Hq.
Qed.


(** *** Closing the queue with one sentinel per worker *)

Lemma count_app {A} (f : A -> bool) l1 l2 :
  count f (l1 ++ l2) = (count f l1 + count f l2)%nat.
Proof. unfold count. now rewrite filter_app, length_app. Qed.

Lemma count_cons {A} (f : A -> bool) x l :
  count f (x :: l) = (Nat.b2n (f x) + count f l)%nat.
Proof. unfold count. cbn. now destruct (f x). Qed.

Lemma count_none {A} (f : A -> bool) l x :
  count f l = 0%nat -> In x l -> f x = false.
Proof.
  induction l as [|y l IH]; [contradiction|].
  rewrite count_cons. intros Hc [->|Hin].
  - destruct (f x); [discriminate|reflexivity].
  - apply IH; [lia|assumption].
Qed.

Lemma count_some {A} (f : A -> bool) l x :
  In x l -> f x = true -> (1 <= count f l)%nat.
Proof.
  induction l as [|y l IH]; [contradiction|].
  rewrite count_cons. intros [->|Hin] Hx.
  - rewrite Hx. cbn. lia.
  - specialize (IH Hin Hx). lia.
Qed.

Lemma count_repeat {A} (f : A -> bool) x n :
  count f (repeat x n) = if f x then n else 0%nat.
Proof.
  induction n as [|n IH]; cbn [repeat].
  - now destruct (f x).
  - rewrite count_cons, IH. now destruct (f x).
Qed.

Lemma firstn_middle {A} (l1 l2 : list A) x :
  firstn (List.length l1) (l1 ++ x :: l2) = l1.
Proof. induction l1 as [|y l1 IH]; cbn; [reflexivity|now rewrite IH]. Qed.

Lemma skipn_middle {A} (l1 l2 : list A) x :
  skipn (S (List.length l1)) (l1 ++ x :: l2) = l2.
Proof. induction l1 as [|y l1 IH]; cbn; [reflexivity|exact IH]. Qed.

(** A step of the pool is a step of one of its workers. *)
Lemma pool_step_at_inv i (p p' : Pool W) :
  pool_step_at net c i p = Some p' ->
  exists l1 wk l2 e q wk',
    p_workers p = l1 ++ wk :: l2
    /\ List.length l1 = i
    /\ worker_step net c (p_env p) (p_queues p) wk = Some (e, q, wk')
    /\ p' = mkPool e q (l1 ++ wk' :: l2).
Proof.
  unfold pool_step_at.
  destruct (nth_error (p_workers p) i) as [wk|] eqn:Hnth; [|discriminate].
  destruct (worker_step net c (p_env p) (p_queues p) wk) as [[[e q] wk']|] eqn:Hstep;
    [|discriminate].
  intros [= <-].
  destruct (nth_error_split _ _ Hnth) as (l1 & l2 & Hws & Hlen).
  exists l1, wk, l2, e, q, wk'. repeat split; auto.
  rewrite Hws, <- Hlen, firstn_middle. do 3 f_equal. apply (skipn_middle l1 l2 wk).
Qed.

Lemma loop_head_go (e : Env W) q url attempts product :
  attempts < _max_retries c ->
  loop_head c e q url attempts product =
    (mkEnv (world e)
       (trace e ++ [EvLog DEBUG (MsgAttempt url (attempts + 1));
                    EvPost (_aiohttp_post_request c url)]),
     q, AtPost url attempts).
Proof.
  intros H. unfold loop_head.
  assert (Hc : (attempts <? _max_retries c) = true) by lia. now rewrite Hc.
Qed.

Lemma loop_head_done (e : Env W) q url attempts v :
  _max_retries c <= attempts ->
  0 < q_unfinished (queue_in q) ->
  loop_head c e q url attempts (Some v) =
    (e,
     mkQueues (mkQueue (q_items (queue_in q)) (q_unfinished (queue_in q) - 1))
       (queue_put v (queue_out q)),
     AtGet).
Proof.
  intros H Hunf. unfold loop_head, queue_task_done.
  assert (Hc : (attempts <? _max_retries c) = false) by lia.
  assert (Hu : (q_unfinished (queue_in q) <=? 0) = false) by lia.
  now rewrite Hc, Hu.
Qed.

(** What a step of a worker does to the closed queue. *)
Lemma worker_step_closed (e : Env W) q wk e' q' wk' urls k :
  1 <= _max_retries c ->
  worker_step net c e q wk = Some (e', q', wk') ->
  q_items (queue_in q) = map Some urls ++ repeat None k ->
  Z.of_nat (List.length (q_items (queue_in q))) + Z.of_nat (Nat.b2n (busy wk))
    <= q_unfinished (queue_in q) ->
  exists urls' k',
    q_items (queue_in q') = map Some urls' ++ repeat None k'
    /\ (Nat.b2n (live wk') + k <= Nat.b2n (live wk) + k')%nat
    /\ Z.of_nat (List.length (q_items (queue_in q')))
         + Z.of_nat (Nat.b2n (busy wk')) - q_unfinished (queue_in q')
       <= Z.of_nat (List.length (q_items (queue_in q)))
          + Z.of_nat (Nat.b2n (busy wk)) - q_unfinished (queue_in q)
    /\ crashed wk' = false.
Proof.
  intros Hmax Hstep Hq Hunf.
  destruct wk as [|url a|url a v| |ex]; cbn [worker_step] in Hstep;
    try discriminate.
  - (* at get *)
    unfold queue_get in Hstep. rewrite Hq in Hstep, Hunf.
    destruct urls as [|u urls]; [destruct k as [|k]|]; pool_simpl.
    + discriminate.
    + unfold queue_task_done in Hstep. pool_simpl.
      assert (Hu : (q_unfinished (queue_in q) <=? 0) = false) by lia.
      rewrite Hu in Hstep. injection Hstep as <- <- <-.
      exists [], k. rewrite Hq. pool_simpl. repeat split; lia.
    + rewrite loop_head_go in Hstep by lia. injection Hstep as <- <- <-.
      exists urls, k. rewrite Hq. pool_simpl. repeat split; lia.
  - (* a request in flight *)
    destruct (net (_aiohttp_post_request c url) (world e)) as [o w'].
    destruct (Z.ltb_spec (a + 1) (_max_retries c)) as [Hlt|Hge].
    + injection Hstep as <- <- <-. exists urls, k. pool_simpl.
      repeat split; auto; lia.
    + rewrite loop_head_done in Hstep by (pool_simpl; lia).
      injection Hstep as <- <- <-. exists urls, k. pool_simpl.
      repeat split; auto; lia.
  - (* asleep *)
    destruct (Z.lt_ge_cases a (_max_retries c)) as [Hlt|Hge].
    + rewrite loop_head_go in Hstep by lia. injection Hstep as <- <- <-.
      exists urls, k. pool_simpl. repeat split; auto; lia.
    + rewrite loop_head_done in Hstep by (pool_simpl; lia).
      injection Hstep as <- <- <-. exists urls, k. pool_simpl.
      repeat split; auto; lia.
Qed.

Lemma closed_per_worker_step (p p' : Pool W) :
  1 <= _max_retries c ->
  closed_per_worker p -> pool_step net c p p' -> closed_per_worker p'.
Proof.
  intros Hmax (urls & k & Hq & Hlive & Hunf & Hcrash) [i Hstep].
  destruct (pool_step_at_inv _ _ _ Hstep)
    as (l1 & wk & l2 & e & q & wk' & Hws & _ & Hwk & ->).
  rewrite Hws, count_app, count_cons in Hlive, Hunf, Hcrash.
  destruct (worker_step_closed _ _ _ _ _ _ urls k Hmax Hwk Hq)
    as (urls' & k' & Hq' & Hlive' & Hunf' & Hcrash'); [lia|].
  exists urls', k'. cbn [p_queues p_workers].
  rewrite !count_app, !count_cons, Hcrash'. cbn [Nat.b2n].
  repeat split; [assumption|lia|lia|lia].
Qed.

Lemma closed_per_worker_steps (p p' : Pool W) :
  1 <= _max_retries c ->
  closed_per_worker p -> pool_steps net c p p' -> closed_per_worker p'.
Proof.
  intros Hmax Hinv Hsteps. induction Hsteps as [p|p p' p'' Hstep _ IH];
    eauto using closed_per_worker_step.
Qed.

(** With the queue closed per worker, a pool in which nothing can move any
    more has all its workers exited. *)
Lemma closed_per_worker_stuck (p : Pool W) :
  closed_per_worker p -> stuck net c p ->
  Forall (fun wk => wk = Exited) (p_workers p).
Proof.
  intros (urls & k & Hq & Hlive & _ & Hcrash) Hstuck.
  apply Forall_forall. intros wk Hin.
  destruct (In_nth_error _ _ Hin) as [i Hnth].
  specialize (Hstuck i). unfold pool_step_at in Hstuck. rewrite Hnth in Hstuck.
  pose proof (count_none _ _ _ Hcrash Hin) as Hnc.
  destruct wk as [|url a|url a v| |ex]; cbn [crashed] in Hnc;
    try discriminate; try reflexivity; exfalso.
  - unfold worker_step, queue_get in Hstuck. rewrite Hq in Hstuck.
    pose proof (count_some live _ _ Hin eq_refl) as Hone.
    destruct urls as [|u urls]; [destruct k as [|k]; [lia|]|];
      cbn [map app repeat] in Hstuck.
    + destruct (queue_task_done _); discriminate.
    + destruct (loop_head _ _ _ _ _ _) as [[e q] wk']. discriminate.
  - cbn [worker_step] in Hstuck.
    destruct (net _ _) as [o w']. destruct (_ <? _).
    + discriminate.
    + destruct (loop_head _ _ _ _ _ _) as [[e q] wk']. discriminate.
  - cbn [worker_step] in Hstuck.
    destruct (loop_head _ _ _ _ _ _) as [[e q] wk']. discriminate.
Qed.

Lemma pool_of_closed_per_worker (w : W) n urls :
  closed_per_worker (pool_of w n (map Some urls ++ repeat None n)).
Proof.
  exists urls, n. cbn [pool_of p_queues p_workers queue_in q_items q_unfinished].
  rewrite !count_repeat. cbn. repeat split; lia.
Qed.

(** *** Every run of the pool is finite *)

Lemma loop_head_measure (e : Env W) q url attempts product e' q' wk' :
  loop_head c e q url attempts product = (e', q', wk') ->
  q_items (queue_in q') = q_items (queue_in q)
  /\ (worker_measure c wk'
       <= 2 * Z.to_nat (_max_retries c - attempts) + 1)%nat
  /\ (_max_retries c <= attempts -> worker_measure c wk' = 0%nat).
Proof.
  unfold loop_head.
  destruct (Z.ltb_spec attempts (_max_retries c)) as [Hlt|Hge].
  - intros [= <- <- <-]. cbn [worker_measure]. repeat split; lia.
  - destruct product as [v|]; [unfold queue_task_done;
      destruct (q_unfinished (queue_in q) <=? 0)|];
      intros [= <- <- <-]; cbn [worker_measure queue_in q_items];
      repeat split; lia.
Qed.

Lemma worker_step_measure (e : Env W) q wk e' q' wk' :
  worker_step net c e q wk = Some (e', q', wk') ->
  (List.length (q_items (queue_in q')) * (2 * Z.to_nat (_max_retries c) + 2)
   + worker_measure c wk'
   < List.length (q_items (queue_in q)) * (2 * Z.to_nat (_max_retries c) + 2)
     + worker_measure c wk)%nat.
Proof.
  intros Hstep.
  destruct wk as [|url a|url a v| |ex]; cbn [worker_step] in Hstep;
    try discriminate.
  - unfold queue_get in Hstep.
    destruct (q_items (queue_in q)) as [|[url|] items] eqn:Hq; [discriminate| |].
    + injection Hstep as Hstep.
      destruct (loop_head_measure _ _ _ _ _ _ _ _ Hstep) as (Hq' & Hm & _).
      rewrite Hq'. pool_simpl. cbn [worker_measure].
      replace (_max_retries c - 0) with (_max_retries c) in Hm by lia. lia.
    + unfold queue_task_done in Hstep. pool_simpl.
      destruct (q_unfinished (queue_in q) <=? 0);
        injection Hstep as <- <- <-; pool_simpl; cbn [worker_measure]; lia.
  - destruct (net (_aiohttp_post_request c url) (world e)) as [o w'].
    destruct (Z.ltb_spec (a + 1) (_max_retries c)) as [Hlt|Hge].
    + injection Hstep as <- <- <-. cbn [worker_measure].
      replace (Z.to_nat (_max_retries c - a))
        with (S (Z.to_nat (_max_retries c - (a + 1)))) by lia. lia.
    + injection Hstep as Hstep.
      destruct (loop_head_measure _ _ _ _ _ _ _ _ Hstep) as (Hq' & _ & Hm).
      rewrite Hq', Hm by lia. cbn [worker_measure]. lia.
  - injection Hstep as Hstep.
    destruct (loop_head_measure _ _ _ _ _ _ _ _ Hstep) as (Hq' & Hm & _).
    rewrite Hq'. cbn [worker_measure]. lia.
Qed.

Lemma pool_step_measure (p p' : Pool W) :
  pool_step net c p p' -> (pool_measure c p' < pool_measure c p)%nat.
Proof.
  intros [i Hstep].
  destruct (pool_step_at_inv _ _ _ Hstep)
    as (l1 & wk & l2 & e & q & wk' & Hws & _ & Hwk & ->).
  apply worker_step_measure in Hwk.
  unfold pool_measure. rewrite Hws. pool_simpl.
  rewrite !map_app, !list_sum_app. cbn [map]. unfold list_sum.
  cbn [fold_right]. lia.
Qed.

(** No run of the pool goes on for ever. *)
Lemma pool_terminates (p : Pool W) :
  Acc (fun p' p => pool_step net c p p') p.
Proof.
  remember (pool_measure c p) as m eqn:Hm.
  revert p Hm. induction m as [m IH] using lt_wf_ind. intros p ->.
  constructor. intros p' Hstep.
  eapply IH; [apply pool_step_measure; exact Hstep|reflexivity].
Qed.

Lemma pool_step_at_beyond i (p : Pool W) :
  (List.length (p_workers p) <= i)%nat -> pool_step_at net c i p = None.
Proof.
  intros Hi. unfold pool_step_at.
  now rewrite (proj2 (nth_error_None _ _) Hi).
Qed.

Lemma stuck_or_step (p : Pool W) :
  stuck net c p \/ exists p', pool_step net c p p'.
Proof.
  assert (H : forall n,
             (forall i, (i < n)%nat -> pool_step_at net c i p = None)
             \/ exists p', pool_step net c p p').
  { induction n as [|n [IH|IH]]; [left; intros i Hi; lia| |right; exact IH].
    destruct (pool_step_at net c n p) as [p'|] eqn:Hn.
    - right. exists p', n. exact Hn.
    - left. intros i Hi. destruct (Nat.eq_dec i n) as [->|]; [exact Hn|].
      apply IH. lia. }
  destruct (H (List.length (p_workers p))) as [Hnone|Hstep]; [left|now right].
  intros i. destruct (Nat.lt_ge_cases i (List.length (p_workers p))).
  - now apply Hnone.
  - now apply pool_step_at_beyond.
Qed.

(** So every pool runs into a state in which nothing can move. *)
Lemma pool_runs_to_stuck (p : Pool W) :
  exists p', pool_steps net c p p' /\ stuck net c p'.
Proof.
  induction (pool_terminates p) as [p _ IH].
  destruct (stuck_or_step p) as [Hstuck|[p' Hstep]].
  - exists p. split; [constructor|exact Hstuck].
  - destruct (IH p' Hstep) as (p'' & Hsteps & Hstuck).
    exists p''. split; [econstructor; eassumption|exact Hstuck].
Qed.

(** *** A pool of one worker is the worker of [async_get_details] *)

Lemma pool_steps_trans (p1 p2 p3 : Pool W) :
  pool_steps net c p1 p2 -> pool_steps net c p2 p3 -> pool_steps net c p1 p3.
Proof.
  induction 1 as [p|p p' p'' Hstep _ IH]; [auto|].
  intros H. econstructor; [exact Hstep|auto].
Qed.

Lemma pool_at_step (e : Env W) q wk t :
  worker_step net c e q wk = Some t ->
  pool_step net c (pool_at (e, q, wk)) (pool_at t).
Proof.
  intros Hstep. exists 0%nat. unfold pool_step_at, pool_at. cbn.
  rewrite Hstep. now destruct t as [[e' q'] wk'].
Qed.

(** The retry loop, seen from the event loop: from the head of the loop in
    the state the loop starts in, the worker steps to the head of the loop
    in the state the loop ends in. *)
Lemma retry_loop_simulation url q :
  forall k fuel (s s' : St W ForUrlFrame),
    (k <= fuel)%nat ->
    Z.to_nat (_max_retries c - fu_attempts (locals s)) = k ->
    while_else fuel (fun s => fu_attempts (locals s) <? _max_retries c)
      (_async_get_details_attempt net c url) (ret tt) s = Ok tt s' ->
    pool_steps net c
      (pool_at (loop_head c (env s) q url
                  (fu_attempts (locals s)) (fu_product (locals s))))
      (pool_at (loop_head c (env s') q url
                  (fu_attempts (locals s')) (fu_product (locals s')))).
Proof.
  induction k as [|k IH]; intros fuel s s' Hfuel Hk Hrun.
  - assert (Hc : (fu_attempts (locals s) <? _max_retries c) = false) by lia.
    destruct fuel; cbn [while_else] in Hrun; rewrite Hc in Hrun;
      injection Hrun as <-; constructor.
  - assert (Hc : (fu_attempts (locals s) <? _max_retries c) = true) by lia.
    destruct fuel as [|fuel]; [lia|]. cbn [while_else] in Hrun.
    rewrite Hc in Hrun.
    destruct (net (_aiohttp_post_request c url) (world (env s)))
      as [o w'] eqn:Hnet.
    rewrite (async_attempt_run _ _ _ _ Hnet) in Hrun.
    eapply pool_steps_trans; [|eapply (IH fuel); [| |exact Hrun]];
      [|lia|cbn; lia].
    cbn [env locals fu_attempts fu_product].
    rewrite loop_head_go by lia.
    destruct (Z.ltb_spec (fu_attempts (locals s) + 1) (_max_retries c))
      as [Hlt|Hge].
    + (* the delay is waited, then the loop is at its head again *)
      econstructor; [apply pool_at_step|econstructor;
                                         [apply pool_at_step|constructor]].
      * cbn [worker_step world trace]. rewrite Hnet.
        assert (Hb : (fu_attempts (locals s) + 1 <? _max_retries c) = true)
          by lia.
        rewrite Hb. reflexivity.
      * cbn [worker_step]. now rewrite <- !app_assoc.
    + econstructor; [apply pool_at_step|constructor].
      cbn [worker_step world trace]. rewrite Hnet.
      assert (Hb : (fu_attempts (locals s) + 1 <? _max_retries c) = false)
        by lia.
      rewrite Hb. now rewrite <- !app_assoc.
Qed.

(** A worker that [async_get_details] runs to its return is a run of the
    pool of that one worker, from its first [get] to its exit, with the
    same world, trace and queues at the end. *)
Lemma single_worker_simulation :
  forall fuel (s s' : St W Queues),
    async_get_details net fuel c s = Ok tt s' ->
    pool_steps net c (mkPool (env s) (locals s) [AtGet])
      (mkPool (env s') (locals s') [Exited]).
Proof.
  induction fuel as [|fuel IH]; intros s s' Hrun; [discriminate|].
  destruct s as [e [[items unf] qout]].
  unfold async_get_details in Hrun. cbn [while_else] in Hrun.
  unfold async_get_details_item at 1, queue_in_get, queue_get, bind at 1 in Hrun.
  cbn [locals env queue_in queue_out q_items q_unfinished] in Hrun |- *.
  destruct items as [|[url|] items]; [discriminate| |].
  - (* a URL *)
    unfold bind at 1, _async_get_details_for_url, call, bind at 1,
      fu_set_attempts in Hrun.
    cbn [locals env fu_product] in Hrun.
    unfold bind at 1 in Hrun.
    set (n := Z.to_nat (_max_retries c)) in *.
    match type of Hrun with context [while_else n ?cond ?body ?orelse ?s0] =>
      destruct (async_retry_loop url n n s0) as (evs & Hloop & _);
        [lia | cbn; lia |];
      pose proof (retry_loop_simulation url
                    (mkQueues (mkQueue items unf) qout) n n s0 _
                    (Nat.le_refl n) ltac:(cbn; lia) Hloop) as Hsim
    end.
    rewrite Hloop in Hrun.
    cbn [env locals world trace fu_attempts fu_product bind] in Hrun, Hsim.
    unfold fu_get_product in Hrun. cbn [locals fu_product] in Hrun.
    destruct n as [|n'] eqn:En; [discriminate|].
    unfold queue_out_put, queue_in_task_done, queue_task_done, queue_put,
      bind, ret in Hrun.
    cbn [locals env queue_in queue_out q_items q_unfinished] in Hrun.
    destruct (Z.leb_spec unf 0) as [Hle|Hgt]; [discriminate|].
    apply IH in Hrun. cbn [env locals] in Hrun.
    rewrite loop_head_done in Hsim by (pool_simpl; lia).
    econstructor;
      [apply (pool_at_step e (mkQueues (mkQueue (Some url :: items) unf) qout)
                AtGet); reflexivity|].
    eapply pool_steps_trans; [exact Hsim|exact Hrun].
  - (* the close sentinel *)
    unfold queue_in_task_done, queue_task_done, bind, ret in Hrun.
    cbn [locals env queue_in queue_out q_items q_unfinished] in Hrun.
    destruct (Z.leb_spec unf 0) as [Hle|Hgt]; [discriminate|].
    injection Hrun as <-.
    econstructor; [exists 0%nat|constructor].
    unfold pool_step_at, worker_step, queue_get, queue_task_done. cbn.
    destruct (Z.leb_spec unf 0); [lia|reflexivity].
Qed.

Lemma nth_error_middle {A} (l1 l2 : list A) x :
  nth_error (l1 ++ x :: l2) (List.length l1) = Some x.
Proof. induction l1 as [|y l1 IH]; cbn; auto. Qed.

Lemma nth_error_middle_other {A} (l1 l2 : list A) x y j :
  j <> List.length l1 ->
  nth_error (l1 ++ x :: l2) j = nth_error (l1 ++ y :: l2) j.
Proof.
  revert j. induction l1 as [|z l1 IH]; intros [|j] Hj; cbn in *;
    try reflexivity; try lia.
  apply IH. lia.
Qed.

(** C7, as the code has it.  A worker that takes the close sentinel marks
    it done and exits; it does not put the sentinel back and signals nothing
    else: the sentinel is gone from the queue, the output queue, the world
    and the other workers are as they were, and a co-worker waiting at [get]
    on the queue it left empty cannot move.  Shutdown reaches all workers
    when the queue is closed with one sentinel per worker: then every run of
    the pool is finite, one that has come to a stop exists, and whenever
    nothing can move any more all workers have exited. *)
Theorem C7_sentinel_stops_one_worker :
  1 <= _max_retries c ->
  (forall i (p : Pool W) rest,
     nth_error (p_workers p) i = Some AtGet ->
     q_items (queue_in (p_queues p)) = None :: rest ->
     0 < q_unfinished (queue_in (p_queues p)) ->
     exists p',
       pool_step_at net c i p = Some p'
       /\ q_items (queue_in (p_queues p')) = rest
       /\ queue_out (p_queues p') = queue_out (p_queues p)
       /\ p_env p' = p_env p
       /\ nth_error (p_workers p') i = Some Exited
       /\ (forall j, j <> i ->
                     nth_error (p_workers p') j = nth_error (p_workers p) j)
       /\ (rest = [] ->
           forall j, nth_error (p_workers p') j = Some AtGet ->
                     pool_step_at net c j p' = None))
  /\ (forall (w : W) n urls,
        let p0 := pool_of w n (map Some urls ++ repeat None n) in
        Acc (fun p' p => pool_step net c p p') p0
        /\ (exists p, pool_steps net c p0 p /\ stuck net c p)
        /\ (forall p, pool_steps net c p0 p -> stuck net c p ->
                      Forall (fun wk => wk = Exited) (p_workers p))).
Proof.
  intros Hmax. split.
  - intros i p rest Hw Hq Hunf.
    rewrite (sentinel_step i p rest Hw Hq Hunf).
    destruct (nth_error_split _ _ Hw) as (l1 & l2 & Hws & Hlen).
    eexists. split; [reflexivity|]. pool_simpl.
    rewrite Hws, <- Hlen, firstn_middle.
    rewrite skipn_middle.
    repeat split.
    + apply nth_error_middle.
    + intros j Hj. now apply nth_error_middle_other.
    + intros -> j Hj. apply blocked_on_empty_queue; [exact Hj|reflexivity].
  - intros w n urls p0. split; [apply pool_terminates|].
    split; [apply pool_runs_to_stuck|].
    intros p Hsteps. apply closed_per_worker_stuck.
    eapply closed_per_worker_steps; [exact Hmax| |exact Hsteps].
    apply pool_of_closed_per_worker.
Qed.

(** *** Nothing bounds the requests in flight *)

(** Workers at [get], one URL each in the queue: after one step of each,
    every one of them has its request in flight. *)
Lemma all_workers_posting unf qout rest :
  1 <= _max_retries c ->
  forall (todo : list string) (done : list Worker) (e0 : Env W),
  exists e',
    pool_run net c (seq (List.length done) (List.length todo))
      (mkPool e0 (mkQueues (mkQueue (map Some todo ++ rest) unf) qout)
         (done ++ repeat AtGet (List.length todo)))
    = mkPool e' (mkQueues (mkQueue rest unf) qout)
        (done ++ map (fun url => AtPost url 0) todo).
Proof.
  intros Hmax. induction todo as [|url todo IH]; intros done e0.
  - exists e0. reflexivity.
  - cbn [List.length seq pool_run repeat map app].
    unfold pool_step_at. pool_simpl.
    rewrite nth_error_middle.
    unfold worker_step, queue_get. pool_simpl.
    rewrite loop_head_go by lia.
    rewrite firstn_middle.
    replace (skipn (S (List.length done))
               (done ++ AtGet :: repeat AtGet (List.length todo)))
      with (repeat AtGet (List.length todo))
      by (symmetry; apply (skipn_middle done _ AtGet)).
    match goal with |- context [mkPool ?e1 _ _] =>
      destruct (IH (done ++ [AtPost url 0]) e1) as (e' & Hrun) end.
    rewrite length_app, Nat.add_comm in Hrun. cbn [List.length Nat.add] in Hrun.
    rewrite <- !app_assoc in Hrun. cbn [app] in Hrun.
    exists e'. exact Hrun.
Qed.

(** Whatever limit the client was built with: [n] workers on [n] URLs have
    [n] requests in flight at once. *)
Lemma in_flight_unbounded (w : W) limit (urls : list string) rest :
  1 <= _max_retries c ->
  in_flight
    (pool_run net (with_async_limit c limit) (seq 0 (List.length urls))
       (pool_of w (List.length urls) (map Some urls ++ rest)))
  = List.length urls.
Proof.
  intros Hmax.
  assert (Hrun : forall sched p,
             pool_run net (with_async_limit c limit) sched p
             = pool_run net c sched p).
  { induction sched as [|i sched IH]; intros p; [reflexivity|].
    cbn [pool_run]. rewrite pool_step_at_ignores_limit.
    destruct (pool_step_at net c i p); apply IH. }
  rewrite Hrun. unfold pool_of.
  destruct (all_workers_posting
              (Z.of_nat (List.length (map Some urls ++ rest)))
              (mkQueue [] 0) rest Hmax urls [] (mkEnv w [])) as (e' & Hp).
  cbn [app List.length] in Hp. rewrite Hp.
  unfold in_flight. pool_simpl. clear.
  induction urls as [|u urls IH]; cbn; [reflexivity|now f_equal].
Qed.

(** ** The whole trace of the sequential fetcher *)

Lemma progress_app t1 t2 : progress (t1 ++ t2) = progress t1 ++ progress t2.
Proof.
  induction t1 as [|[] t1 IH]; simpl; auto. now rewrite IH.
Qed.

Lemma fetched_urls_app t1 t2 :
  fetched_urls (t1 ++ t2) = fetched_urls t1 ++ fetched_urls t2.
Proof.
  induction t1 as [|[lvl []| | |] t1 IH]; simpl; auto. now rewrite IH.
Qed.

Lemma failed_urls_app t1 t2 :
  failed_urls (t1 ++ t2) = failed_urls t1 ++ failed_urls t2.
Proof.
  induction t1 as [|[lvl []| | |] t1 IH]; simpl; auto. now rewrite IH.
Qed.

(** The retry loop of one URL, event by event. *)
Lemma get_details_retry_trace url :
  0 <= _retry_delay c ->
  forall k fuel (s : St W GetDetailsFrame),
    (k <= fuel)%nat ->
    Z.to_nat (_max_retries c - gd_attempts (locals s)) = k ->
    exists a,
      while_else fuel (fun s => gd_attempts (locals s) <? _max_retries c)
        (get_details_attempt net c url) (log ERROR (MsgAllFailed url)) s =
        Ok tt
          (mkSt (mkEnv (snd (spec_fetch_url net c k url (world (env s))))
                   (trace (env s)
                    ++ retry_events net c k url (gd_attempts (locals s))
                         (world (env s))))
             (mkGetDetailsFrame a
                (gd_products (locals s) ++
                 opt_list (fst (spec_fetch_url net c k url (world (env s))))))).
Proof.
  intros Hd. induction k as [|k IH]; intros fuel s Hfuel Hk.
  - exists (gd_attempts (locals s)).
    assert (Hc : (gd_attempts (locals s) <? _max_retries c) = false) by lia.
    destruct fuel; simpl; rewrite Hc; run_proc; rewrite app_nil_r;
      destruct s as [[w t] [a ps]]; auto.
  - assert (Hc : (gd_attempts (locals s) <? _max_retries c) = true) by lia.
    destruct fuel as [|fuel]; [lia|]. simpl. rewrite Hc.
    destruct (net (get_details_request c url) (world (env s))) as [o w'] eqn:Hnet.
    destruct (seq_record url o) as [rec|] eqn:Hrec.
    + rewrite (get_details_attempt_success _ _ _ _ _ Hnet Hrec).
      eexists. reflexivity.
    + rewrite (get_details_attempt_failure _ _ _ _ Hd Hnet Hrec).
      match goal with |- context [while_else fuel _ _ _ ?s1] =>
        destruct (IH fuel s1) as (a & Hrun); [lia | cbn; lia |] end.
      rewrite Hrun. cbn [env locals world trace gd_attempts gd_products].
      exists a. now rewrite <- !app_assoc.
Qed.

Lemma get_details_url_trace url (s : St W GetDetailsFrame) :
  0 <= _retry_delay c ->
  let n := Z.to_nat (_max_retries c) in
  exists a,
    get_details_url net c url s =
      Ok tt
        (mkSt (mkEnv (snd (spec_fetch_url net c n url (world (env s))))
                 (trace (env s)
                  ++ retry_events net c n url 0 (world (env s))
                  ++ [EvProgress 1]))
           (mkGetDetailsFrame a
              (gd_products (locals s) ++
               opt_list (fst (spec_fetch_url net c n url (world (env s))))))).
Proof.
  intros Hd n. unfold get_details_url, gd_set_attempts, bind.
  match goal with |- context [while_else _ _ _ _ ?s1] =>
    destruct (get_details_retry_trace url Hd n n s1) as (a & Hrun);
      [lia | cbn; lia |] end.
  fold n. rewrite Hrun. unfold emit. cbn.
  exists a. now rewrite <- app_assoc.
Qed.

Lemma get_details_for_each_trace urls :
  0 <= _retry_delay c ->
  forall s : St W GetDetailsFrame,
  exists a,
    for_each urls (get_details_url net c) s =
      Ok tt
        (mkSt (mkEnv (snd (spec_fetch_all net c urls (world (env s))))
                 (trace (env s) ++ batch_events net c urls (world (env s))))
           (mkGetDetailsFrame a
              (gd_products (locals s) ++
               records (fst (spec_fetch_all net c urls (world (env s))))))).
Proof.
  intros Hd. induction urls as [|url urls IH]; intros s.
  - exists (gd_attempts (locals s)). destruct s as [[w t] [a ps]]. cbn.
    now rewrite !app_nil_r.
  - cbn [for_each]. unfold bind.
    destruct (get_details_url_trace url s Hd) as (a1 & Hrun1).
    rewrite Hrun1.
    match goal with |- context [for_each _ _ ?s1] =>
      destruct (IH s1) as (a2 & Hrun2) end.
    rewrite Hrun2. cbn [env locals world trace gd_products] in *.
    cbn [spec_fetch_all batch_events].
    destruct (spec_fetch_url net c (Z.to_nat (_max_retries c)) url (world (env s)))
      as [r w1].
    cbn [fst snd] in *.
    destruct (spec_fetch_all net c urls w1) as [rs w2].
    cbn [fst snd] in *.
    exists a2. unfold records at 2. cbn [flat_map snd]. fold (records rs).
    rewrite <- !app_assoc. reflexivity.
Qed.

(** [get_details], event by event: the opening log, the events of the
    [for] loop, the closing log with the number of records. *)
Lemma get_details_trace {L} urls (s : St W L) :
  0 <= _retry_delay c ->
  let outs := fst (spec_fetch_all net c urls (world (env s))) in
  get_details net c urls s =
    Ok (records outs)
      (mkSt (mkEnv (snd (spec_fetch_all net c urls (world (env s))))
               (trace (env s)
                ++ EvLog INFO (MsgFetching (List.length urls))
                :: batch_events net c urls (world (env s))
                ++ [EvLog INFO (MsgFetched (List.length (records outs)))]))
         (locals s)).
Proof.
  intros Hd outs. unfold get_details, gd_set_products, gd_get_products.
  run_proc.
  match goal with |- context [for_each _ _ ?s1] =>
    destruct (get_details_for_each_trace urls Hd s1) as (a & Hrun) end.
  rewrite Hrun. cbn. rewrite <- !app_assoc. reflexivity.
Qed.

Lemma seq_failure_log_quiet url o t :
  posts (seq_failure_log url o :: t) = posts t
  /\ sleeps (seq_failure_log url o :: t) = sleeps t
  /\ progress (seq_failure_log url o :: t) = progress t
  /\ fetched_urls (seq_failure_log url o :: t) = fetched_urls t
  /\ failed_urls (seq_failure_log url o :: t) = failed_urls t.
Proof.
  destruct o as [e|r]; cbn; [auto 6|].
  destruct (status_code r =? 200); [destruct (json_body r)|]; cbn; auto 6.
Qed.

Lemma retry_wait_quiet a :
  progress (retry_wait c a) = []
  /\ fetched_urls (retry_wait c a) = []
  /\ failed_urls (retry_wait c a) = [].
Proof. unfold retry_wait. destruct (a <? _max_retries c); cbn; auto. Qed.


Lemma retry_events_posts k url a w :
  posts (retry_events net c k url a w) =
    repeat (get_details_request c url) (spec_calls net c k url w).
Proof.
  revert a w. induction k as [|k IH]; intros a w;
    cbn [retry_events spec_calls]; [reflexivity|].
  destruct (net (get_details_request c url) w) as [o w'].
  destruct (seq_record url o); [reflexivity|]. rewrite posts_app.
  destruct (seq_failure_log_quiet url o
              (retry_wait c (a + 1) ++ retry_events net c k url (a + 1) w'))
    as (-> & _).
  now rewrite posts_app, posts_retry_wait, IH.
Qed.

Lemma retry_events_sleeps k url a w :
  Z.to_nat (_max_retries c - a) = k ->
  sleeps (retry_events net c k url a w) =
    repeat (_retry_delay c) (Nat.pred (spec_calls net c k url w)).
Proof.
  revert a w. induction k as [|k IH]; intros a w Hk;
    cbn [retry_events spec_calls]; [reflexivity|].
  destruct (net (get_details_request c url) w) as [o w'].
  destruct (seq_record url o); [reflexivity|]. rewrite sleeps_app.
  destruct (seq_failure_log_quiet url o
              (retry_wait c (a + 1) ++ retry_events net c k url (a + 1) w'))
    as (_ & -> & _).
  rewrite sleeps_app, sleeps_retry_wait, IH by lia.
  cbn [sleeps app Nat.pred].
  destruct (Z.ltb_spec (a + 1) (_max_retries c)); cbn [app].
  - pose proof (spec_calls_pos k url w' ltac:(lia)).
    destruct (spec_calls net c k url w'); [lia|reflexivity].
  - assert (k = 0%nat) by lia. subst k. reflexivity.
Qed.

Lemma retry_events_reports k url a w :
  progress (retry_events net c k url a w) = []
  /\ fetched_urls (retry_events net c k url a w) =
       match fst (spec_fetch_url net c k url w) with
       | Some _ => [url] | None => []
       end
  /\ failed_urls (retry_events net c k url a w) =
       match fst (spec_fetch_url net c k url w) with
       | Some _ => [] | None => [url]
       end.
Proof.
  revert a w. induction k as [|k IH]; intros a w;
    cbn [retry_events spec_fetch_url]; [cbn; auto|].
  destruct (net (get_details_request c url) w) as [o w'].
  destruct (seq_record url o); [cbn; auto|].
  rewrite progress_app, fetched_urls_app, failed_urls_app.
  destruct (seq_failure_log_quiet url o
              (retry_wait c (a + 1) ++ retry_events net c k url (a + 1) w'))
    as (_ & _ & -> & -> & ->).
  rewrite !progress_app, !fetched_urls_app, !failed_urls_app.
  destruct (retry_wait_quiet (a + 1)) as (-> & -> & ->).
  cbn [progress fetched_urls failed_urls app fst]. apply IH.
Qed.

Lemma batch_events_calls urls w :
  posts (batch_events net c urls w) =
    List.concat
      (map (fun p => repeat (get_details_request c (fst p)) (snd p))
         (combine urls (spec_call_counts net c urls w)))
  /\ sleeps (batch_events net c urls w) =
       List.concat
         (map (fun k => repeat (_retry_delay c) (Nat.pred k))
            (spec_call_counts net c urls w)).
Proof.
  revert w. induction urls as [|url urls IH]; intros w; [split; reflexivity|].
  cbn [batch_events spec_call_counts combine map List.concat fst snd].
  destruct (IH (snd (spec_fetch_url net c (Z.to_nat (_max_retries c)) url w)))
    as [IHp IHs].
  change (EvProgress 1 :: ?l) with ([EvProgress 1] ++ l).
  rewrite !posts_app, !sleeps_app, retry_events_posts, IHp, IHs.
  rewrite retry_events_sleeps by lia. split; reflexivity.
Qed.


Lemma batch_events_reports urls w :
  progress (batch_events net c urls w) = repeat 1 (List.length urls)
  /\ fetched_urls (batch_events net c urls w) =
       succeeded (fst (spec_fetch_all net c urls w))
  /\ failed_urls (batch_events net c urls w) =
       exhausted (fst (spec_fetch_all net c urls w)).
Proof.
  revert w. induction urls as [|url urls IH]; intros w; [auto|].
  cbn [batch_events spec_fetch_all List.length repeat].
  destruct (retry_events_reports (Z.to_nat (_max_retries c)) url 0 w)
    as (Hp & Hf & Hx).
  destruct (spec_fetch_url net c (Z.to_nat (_max_retries c)) url w)
    as [r w1].
  cbn [fst snd] in *. destruct (IH w1) as (IHp & IHf & IHx).
  destruct (spec_fetch_all net c urls w1) as [rs w2]. cbn [fst snd] in *.
  change (EvProgress 1 :: ?l) with ([EvProgress 1] ++ l).
  rewrite !progress_app, !fetched_urls_app, !failed_urls_app.
  rewrite Hp, Hf, Hx, IHp, IHf, IHx.
  unfold succeeded, exhausted. cbn [flat_map fst snd progress fetched_urls
                                     failed_urls app].
  destruct r; auto.
Qed.


(** X2. Progress: [get_details] moves the progress bar by one exactly once
    for every URL of the batch, fetched or not. *)
Theorem X2_progress_once_per_url {L} (urls : list string) (s : St W L) :
  0 <= _retry_delay c ->
  exists products s',
    get_details net c urls s = Ok products s'
    /\ progress (trace (env s')) =
         progress (trace (env s)) ++ repeat 1 (List.length urls).
Proof.
  intros Hd. eexists _, _.
  split; [apply get_details_trace; exact Hd|].
  destruct (batch_events_reports urls (world (env s))) as (Hp & _).
  cbn [env trace].
  change (EvLog INFO (MsgFetching (List.length urls)) :: ?l)
    with ([EvLog INFO (MsgFetching (List.length urls))] ++ l).
  rewrite !progress_app, Hp. cbn [progress app]. now rewrite app_nil_r.
Qed.

(** X3. Logging of the outcome: [get_details] opens with the number of
    URLs and closes with the number of records it returns; in between it
    logs as fetched exactly the URLs whose record is in the output, and as
    failed for good exactly the URLs it left out, each once and in the
    order of the batch. *)
Theorem X3_outcome_logging {L} (urls : list string) (s : St W L) :
  0 <= _retry_delay c ->
  exists outs s' evs,
    get_details net c urls s = Ok (records outs) s'
    /\ map fst outs = urls
    /\ trace (env s') =
         trace (env s)
           ++ EvLog INFO (MsgFetching (List.length urls))
           :: evs ++ [EvLog INFO (MsgFetched (List.length (records outs)))]
    /\ fetched_urls evs = succeeded outs
    /\ failed_urls evs = exhausted outs.
Proof.
  intros Hd.
  exists (fst (spec_fetch_all net c urls (world (env s)))).
  eexists _, (batch_events net c urls (world (env s))).
  split; [apply get_details_trace; exact Hd|].
  destruct (batch_events_reports urls (world (env s))) as (_ & Hf & Hx).
  split; [apply spec_fetch_all_urls|]. auto.
Qed.

(** ** Dicts, payloads and records *)

Lemma dict_get_app k d1 d2 :
  dict_get k (d1 ++ d2) =
    match dict_get k d1 with
    | Some v => Some v
    | None => dict_get k d2
    end.
Proof.
  induction d1 as [|[k' v'] d1 IH]; cbn; [reflexivity|].
  now destruct (String.eqb k k').
Qed.

Lemma dict_get_set_other k k' v d :
  k <> k' -> dict_get k (dict_set k' v d) = dict_get k d.
Proof.
  intros Hk. apply String.eqb_neq in Hk.
  induction d as [|[k0 v0] d IH]; cbn.
  - now rewrite Hk.
  - destruct (String.eqb k' k0) eqn:E; cbn.
    + apply String.eqb_eq in E. subst k0. now rewrite Hk.
    + now rewrite IH.
Qed.

Lemma dict_set_length k v d :
  (List.length d <= List.length (dict_set k v d) <= S (List.length d))%nat.
Proof.
  induction d as [|[k0 v0] d IH]; cbn; [lia|].
  destruct (String.eqb k k0); cbn; lia.
Qed.

Lemma dict_set_injected url body :
  injected url body (JObj (dict_set "url" (JStr url) body)).
Proof.
  eexists. split; [reflexivity|]. split; [apply dict_get_set_same|].
  split; [intros k Hk; now apply dict_get_set_other|apply dict_set_length].
Qed.

(** X4. One wire contract for both modes: for a client built by the
    constructor, the sequential and the concurrent path post to the same
    endpoint with the same credentials and with payloads that hold the same
    value under every key: the URL under ["url"] and the options of
    [_config] under theirs.  The payloads differ in the place of the
    ["url"] entry and in nothing else. *)
Theorem X4_same_request_in_both_modes (api_key : string)
    (max_retries retry_delay limit : Z) (url : string) :
  let client := __init__ api_key max_retries retry_delay limit in
  req_url (get_details_request client url)
    = req_url (_aiohttp_post_request client url)
  /\ req_auth (get_details_request client url)
     = req_auth (_aiohttp_post_request client url)
  /\ exists d_seq d_async,
       req_json (get_details_request client url) = JObj d_seq
       /\ req_json (_aiohttp_post_request client url) = JObj d_async
       /\ (forall k, dict_get k d_seq = dict_get k d_async)
       /\ dict_get "url" d_seq = Some (JStr url)
       /\ (forall k, k <> "url" -> dict_get k d_seq = dict_get k _config)
       /\ List.length d_seq = List.length d_async.
Proof.
  intros client. split; [reflexivity|]. split; [reflexivity|].
  exists (("url", JStr url) :: _config), (_config ++ [("url", JStr url)]).
  split; [reflexivity|]. split; [reflexivity|].
  assert (Hk : forall k, k <> "url" ->
                 dict_get k (("url", JStr url) :: _config) = dict_get k _config).
  { intros k Hk. apply String.eqb_neq in Hk. cbn [dict_get]. now rewrite Hk. }
  split; [|split; [reflexivity|split; [exact Hk|reflexivity]]].
  intros k. rewrite dict_get_app.
  destruct (String.eqb_spec k "url") as [->|Hne]; [reflexivity|].
  rewrite (Hk k Hne). cbn [dict_get].
  apply String.eqb_neq in Hne. rewrite Hne.
  now destruct (dict_get k _config).
Qed.

Lemma seq_record_inv url o rec :
  seq_record url o = Some rec ->
  exists r body,
    o = Responded r /\ status_code r = 200
    /\ json_body r = Some (JObj body)
    /\ rec = JObj (dict_set "url" (JStr url) body).
Proof.
  destruct o as [e|r]; cbn; [discriminate|].
  destruct (Z.eqb_spec (status_code r) 200) as [Hst|]; [|discriminate].
  destruct (json_body r) as [[]|] eqn:Hb; try discriminate.
  intros [= <-]. eauto 6.
Qed.

Lemma async_value_inv url o d :
  async_value url o = JObj d ->
  exists r body,
    o = Responded r /\ status_code r < 400
    /\ json_body r = Some (JObj body)
    /\ d = dict_set "url" (JStr url) body.
Proof.
  destruct o as [e|r]; cbn; [discriminate|].
  destruct (Z.leb_spec 400 (status_code r)) as [|Hst]; [discriminate|].
  destruct (json_body r) as [[]|] eqn:Hb; try discriminate.
  intros [= <-]. eauto 6.
Qed.

Lemma spec_fetch_all_provenance urls w :
  Forall (fun rec =>
            exists url w0 r body,
              In url urls
              /\ fst (net (get_details_request c url) w0) = Responded r
              /\ status_code r = 200
              /\ json_body r = Some (JObj body)
              /\ injected url body rec)
    (records (fst (spec_fetch_all net c urls w))).
Proof.
  revert w. induction urls as [|u urls IH]; intros w; cbn; [constructor|].
  destruct (spec_fetch_url net c _ u w) as [r w1] eqn:Hf.
  specialize (IH w1). destruct (spec_fetch_all net c urls w1) as [rs w2].
  cbn [fst snd records flat_map] in *. fold (records rs).
  apply Forall_app. split.
  - destruct r as [rec|]; cbn; [|constructor].
    constructor; [|constructor].
    assert (Hr : fst (spec_fetch_url net c (Z.to_nat (_max_retries c)) u w)
                 = Some rec) by now rewrite Hf.
    destruct (spec_fetch_url_fetched _ _ _ _ Hr) as (k & _ & Hk).
    destruct (seq_record_inv _ _ _ Hk) as (resp & body & Ho & Hst & Hb & ->).
    exists u, (world_after net k (get_details_request c u) w), resp, body.
    repeat split; auto using dict_set_injected, in_eq.
  - eapply Forall_impl; [|exact IH].
    intros rec (url & w0 & resp & body & Hin & H).
    exists url, w0, resp, body. split; [now right|exact H].
Qed.

(** X5. Where a record comes from: every record that [get_details] returns
    is the body of a status-200 answer to the request for one of the URLs
    of the batch, and every dict that [_async_get_details_for_url] returns
    is the body of an answer below status 400 to the request for its URL;
    in both cases the body was a dict and comes back with every entry other
    than ["url"] as it was received, ["url"] set to the URL, and at most
    that one entry added. *)
Theorem X5_record_provenance {L} (urls : list string) (url : string)
    (s : St W L) :
  0 <= _retry_delay c ->
  (forall products s',
     get_details net c urls s = Ok products s' ->
     Forall (fun rec =>
               exists url w0 r body,
                 In url urls
                 /\ fst (net (get_details_request c url) w0) = Responded r
                 /\ status_code r = 200
                 /\ json_body r = Some (JObj body)
                 /\ injected url body rec)
       products)
  /\ (forall d s',
        _async_get_details_for_url net c url s = Ok (JObj d) s' ->
        exists w0 r body,
          fst (net (_aiohttp_post_request c url) w0) = Responded r
          /\ status_code r < 400
          /\ json_body r = Some (JObj body)
          /\ injected url body (JObj d)).
Proof.
  intros Hd. split.
  - intros products s' Hrun.
    rewrite (get_details_trace urls s Hd) in Hrun. injection Hrun as <- _.
    apply spec_fetch_all_provenance.
  - intros d s' Hrun.
    destruct (Z.le_gt_cases 1 (_max_retries c)) as [Hmax|Hmax].
    + destruct (async_get_details_for_url_run url s Hmax) as (evs & Hrun' & _).
      rewrite Hrun' in Hrun. injection Hrun as Hv _.
      destruct (async_value_inv _ _ _ Hv) as (r & body & Ho & Hst & Hb & ->).
      eexists _, r, body. repeat split; eauto using dict_set_injected.
    + rewrite async_get_details_for_url_unbound in Hrun by lia. discriminate.
Qed.

(** ** The edges of the retry policy *)

Lemma get_details_url_no_attempt url (s : St W GetDetailsFrame) :
  _max_retries c <= 0 ->
  get_details_url net c url s =
    Ok tt
      (mkSt (mkEnv (world (env s))
               (trace (env s) ++ [EvLog ERROR (MsgAllFailed url); EvProgress 1]))
         (mkGetDetailsFrame 0 (gd_products (locals s)))).
Proof.
  intros Hmax.
  assert (Hc : (0 <? _max_retries c) = false) by lia.
  destruct s as [[w t] [a ps]].
  unfold get_details_url, gd_set_attempts, bind, emit, log.
  cbn [env locals world trace gd_products gd_attempts].
  destruct (Z.to_nat (_max_retries c)); cbn [while_else locals gd_attempts];
    rewrite Hc; unfold emit; cbn; now rewrite <- !app_assoc.
Qed.

Lemma get_details_for_each_no_attempt :
  _max_retries c <= 0 ->
  forall urls (s : St W GetDetailsFrame),
  exists a,
    for_each urls (get_details_url net c) s =
      Ok tt
        (mkSt (mkEnv (world (env s))
                 (trace (env s)
                  ++ flat_map (fun url => [EvLog ERROR (MsgAllFailed url);
                                           EvProgress 1]) urls))
           (mkGetDetailsFrame a (gd_products (locals s)))).
Proof.
  intros Hmax.
  induction urls as [|url urls IH]; intros s.
  - destruct s as [[w t] [a ps]]. exists a. cbn. now rewrite app_nil_r.
  - cbn [for_each]. unfold bind at 1.
    rewrite get_details_url_no_attempt by exact Hmax.
    match goal with |- context [for_each _ _ ?s1] =>
      destruct (IH s1) as (a' & ->) end.
    exists a'. cbn. now rewrite <- !app_assoc.
Qed.

(** X6. No attempt allowed ([max_retries <= 0]): the sequential path makes
    no call at all, logs every URL as failed and returns the empty list,
    whatever the delay; the concurrent path raises [UnboundLocalError] from
    [return product] before any call, and a worker that has taken a URL
    dies on it: nothing is put on the output queue and the URL is never
    marked done. *)
Theorem X6_no_attempt_allowed {L} (urls : list string) (url : string)
    (s : St W L) :
  _max_retries c <= 0 ->
  (exists s',
     get_details net c urls s = Ok [] s'
     /\ world (env s') = world (env s)
     /\ posts (trace (env s')) = posts (trace (env s))
     /\ failed_urls (trace (env s')) = failed_urls (trace (env s)) ++ urls)
  /\ _async_get_details_for_url net c url s = Raise UnboundLocalError s
  /\ (forall fuel (sq : St W Queues) rest,
        q_items (queue_in (locals sq)) = Some url :: rest ->
        async_get_details net (S fuel) c sq =
          Raise UnboundLocalError
            (mkSt (env sq)
               (mkQueues
                  (mkQueue rest (q_unfinished (queue_in (locals sq))))
                  (queue_out (locals sq))))).
Proof.
  intros Hmax. split; [|split].
  - unfold get_details, gd_set_products, gd_get_products. run_proc.
    match goal with |- context [for_each _ _ ?s1] =>
      destruct (get_details_for_each_no_attempt Hmax urls s1) as (a & ->) end.
    cbn. eexists. split; [reflexivity|]. cbn. split; [reflexivity|].
    rewrite !posts_app, !failed_urls_app. cbn.
    assert (Hp : forall us, posts (flat_map
                   (fun url => [EvLog ERROR (MsgAllFailed url); EvProgress 1]) us)
                 = [])
      by (induction us; cbn; auto).
    assert (Hf : forall us, failed_urls (flat_map
                   (fun url => [EvLog ERROR (MsgAllFailed url); EvProgress 1]) us)
                 = us)
      by (induction us as [|u us IHus]; cbn; [reflexivity|now rewrite IHus]).
    rewrite Hp, Hf, !app_nil_r. auto.
  - apply async_get_details_for_url_unbound. exact Hmax.
  - intros fuel [e [[items unf] qout]] rest Hq. cbn in Hq. subst items.
    unfold async_get_details. cbn [while_else].
    unfold async_get_details_item at 1, queue_in_get, queue_get, bind at 1.
    cbn [locals env queue_in queue_out q_items q_unfinished].
    unfold bind at 1.
    now rewrite async_get_details_for_url_unbound by exact Hmax.
Qed.

Lemma gd_count_and_wait_negative (s : St W GetDetailsFrame) :
  _retry_delay c < 0 ->
  gd_count_and_wait c s =
    if gd_attempts (locals s) + 1 <? _max_retries c then
      Raise ValueError
        (mkSt (mkEnv (world (env s))
                 (trace (env s) ++ [EvLog WARNING (MsgRetrying (_retry_delay c))]))
           (mkGetDetailsFrame (gd_attempts (locals s) + 1)
              (gd_products (locals s))))
    else
      Ok tt (mkSt (env s)
               (mkGetDetailsFrame (gd_attempts (locals s) + 1)
                  (gd_products (locals s)))).
Proof.
  intros Hd. assert (Hs : (_retry_delay c <? 0) = true) by lia.
  destruct s as [[w t] [a ps]].
  unfold gd_count_and_wait, gd_get_attempts, gd_set_attempts, time_sleep;
    run_proc.
  destruct (_ <? _max_retries c); cbn; rewrite ?Hs; reflexivity.
Qed.

Lemma get_details_attempt_negative url (s : St W GetDetailsFrame) o w' :
  _retry_delay c < 0 ->
  gd_attempts (locals s) + 1 < _max_retries c ->
  net (get_details_request c url) (world (env s)) = (o, w') ->
  seq_record url o = None ->
  let warning := EvLog WARNING (MsgRetrying (_retry_delay c)) in
  let t1 := trace (env s)
            ++ [EvLog DEBUG (MsgAttempt url (gd_attempts (locals s) + 1));
                EvPost (get_details_request c url);
                seq_failure_log url o; warning] in
  let t2 := t1 ++ [EvLog ERROR (MsgException url ValueError)] in
  get_details_attempt net c url s =
    if answered_not_200 o then
      if gd_attempts (locals s) + 1 + 1 <? _max_retries c then
        Raise ValueError
          (mkSt (mkEnv w' (t2 ++ [warning]))
             (mkGetDetailsFrame (gd_attempts (locals s) + 1 + 1)
                (gd_products (locals s))))
      else
        Ok Continue
          (mkSt (mkEnv w' t2)
             (mkGetDetailsFrame (gd_attempts (locals s) + 1 + 1)
                (gd_products (locals s))))
    else
      Raise ValueError
        (mkSt (mkEnv w' t1)
           (mkGetDetailsFrame (gd_attempts (locals s) + 1)
              (gd_products (locals s)))).
Proof.
  intros Hd Ha Hnet Hrec warning t1 t2. subst t2 t1 warning.
  assert (H1 : (gd_attempts (locals s) + 1 <? _max_retries c) = true) by lia.
  destruct s as [[w t] [a ps]].
  cbn [env locals world trace gd_attempts gd_products] in *.
  unfold get_details_attempt, http_post, gd_get_attempts; run_proc.
  rewrite Hnet. destruct o as [e|r]; cbn [answered_not_200] in *.
  - cbn. rewrite gd_count_and_wait_negative by exact Hd. cbn. rewrite H1.
    now rewrite <- !app_assoc.
  - cbn in Hrec. unfold seq_failure_log.
    destruct (status_code r =? 200); cbn [negb].
    + unfold response_json.
      destruct (json_body r) as [[]|]; try discriminate; cbn;
        rewrite gd_count_and_wait_negative by exact Hd; cbn; rewrite H1;
        now rewrite <- !app_assoc.
    + cbn. rewrite gd_count_and_wait_negative by exact Hd. cbn. rewrite H1.
      rewrite gd_count_and_wait_negative by exact Hd. cbn.
      destruct (a + 1 + 1 <? _max_retries c); now rewrite <- !app_assoc.
Qed.

Lemma get_details_url_negative url (s : St W GetDetailsFrame) o w' :
  _retry_delay c < 0 ->
  2 <= _max_retries c ->
  net (get_details_request c url) (world (env s)) = (o, w') ->
  seq_record url o = None ->
  exists s',
    get_details_url net c url s =
      (if (_max_retries c =? 2) && answered_not_200 o
       then Ok tt s' else Raise ValueError s')
    /\ gd_products (locals s') = gd_products (locals s)
    /\ posts (trace (env s')) =
         posts (trace (env s)) ++ [get_details_request c url]
    /\ sleeps (trace (env s')) = sleeps (trace (env s)).
Proof.
  intros Hd Hmax Hnet Hrec.
  assert (H0 : (0 <? _max_retries c) = true) by lia.
  destruct s as [[w t] [a ps]].
  cbn [env locals world trace gd_attempts gd_products] in *.
  unfold get_details_url, gd_set_attempts, bind.
  cbn [env locals world trace gd_attempts gd_products].
  destruct (Z.to_nat (_max_retries c)) as [|[|fuel]] eqn:Hfuel; [lia|lia|].
  cbn [while_else]. cbn [locals gd_attempts]. rewrite H0.
  rewrite (get_details_attempt_negative url _ o w' Hd) by (cbn; auto; lia).
  cbn [env locals world trace gd_attempts gd_products].
  destruct (answered_not_200 o).
  - rewrite Bool.andb_true_r.
    destruct (Z.eqb_spec (_max_retries c) 2) as [H2|H2].
    + assert (Hc : (0 + 1 + 1 <? _max_retries c) = false) by lia.
      rewrite Hc. cbn [locals gd_attempts]. rewrite Hc.
      unfold log, emit. cbn [env locals world trace gd_attempts gd_products].
      eexists. split; [reflexivity|]. cbn [env locals trace gd_products].
      split; [reflexivity|].
      rewrite !posts_app, !sleeps_app; unfold seq_failure_log;
        destruct o as [e|r];
        [|destruct (status_code r =? 200); [destruct (json_body r)|]];
        cbn; rewrite ?app_nil_r; auto.
    + assert (Hc : (0 + 1 + 1 <? _max_retries c) = true) by lia.
      rewrite Hc.
      eexists. split; [reflexivity|]. cbn [env locals trace gd_products].
      split; [reflexivity|].
      rewrite !posts_app, !sleeps_app; unfold seq_failure_log;
        destruct o as [e|r];
        [|destruct (status_code r =? 200); [destruct (json_body r)|]];
        cbn; rewrite ?app_nil_r; auto.
  - rewrite Bool.andb_false_r.
    eexists. split; [reflexivity|]. cbn [env locals trace gd_products].
    split; [reflexivity|].
    rewrite !posts_app, !sleeps_app; unfold seq_failure_log;
        destruct o as [e|r];
        [|destruct (status_code r =? 200); [destruct (json_body r)|]];
        cbn; rewrite ?app_nil_r; auto.
Qed.

(** X7. A negative retry delay: [time.sleep] raises [ValueError], so a URL
    whose first call fails never gets its second call although two or more
    attempts are allowed.  [get_details] ends with [ValueError] after that
    single call and no wait; only when the call was answered with a status
    other than 200 and exactly two attempts are allowed does it swallow the
    error, count the attempt twice and give the URL up. *)
Theorem X7_negative_delay_one_call {L} (url : string) (s : St W L)
    (o : Outcome) (w' : W) :
  _retry_delay c < 0 ->
  2 <= _max_retries c ->
  net (get_details_request c url) (world (env s)) = (o, w') ->
  seq_record url o = None ->
  exists s',
    get_details net c [url] s =
      (if (_max_retries c =? 2) && answered_not_200 o
       then Ok [] s' else Raise ValueError s')
    /\ posts (trace (env s')) =
         posts (trace (env s)) ++ [get_details_request c url]
    /\ sleeps (trace (env s')) = sleeps (trace (env s)).
Proof.
  intros Hd Hmax Hnet Hrec.
  destruct s as [[w t] l]. cbn [env world] in Hnet.
  unfold get_details, call, gd_set_products, gd_get_products, bind, log, emit.
  cbn [env locals world trace gd_attempts gd_products for_each].
  unfold bind.
  match goal with |- context [get_details_url net c url ?s1] =>
    destruct (get_details_url_negative url s1 o w' Hd Hmax Hnet Hrec)
      as (s1' & -> & Hps & Hp & Hs) end.
  cbn [env locals world trace gd_attempts gd_products] in Hps, Hp, Hs.
  destruct ((_max_retries c =? 2) && answered_not_200 o).
  - unfold ret. cbn [env locals world trace]. rewrite Hps.
    eexists. split; [reflexivity|]. cbn [env trace].
    rewrite !posts_app, !sleeps_app, Hp, Hs, !posts_app, !sleeps_app.
    cbn. now rewrite !app_nil_r.
  - eexists. split; [reflexivity|]. cbn [env trace].
    now rewrite Hp, Hs, !posts_app, !sleeps_app, !app_nil_r.
Qed.

(** ** More on the worker of the concurrent fetcher *)

(** A worker on a queue that holds URLs and no sentinel: it works them all
    off and is then suspended in [get]. *)
Lemma async_get_details_blocks :
  1 <= _max_retries c ->
  forall urls fuel (s : St W Queues),
    (List.length urls < fuel)%nat ->
    q_items (queue_in (locals s)) = map Some urls ->
    Z.of_nat (List.length urls) <= q_unfinished (queue_in (locals s)) ->
    exists evs,
      async_get_details net fuel c s =
        Blocked
          (mkSt (mkEnv (snd (spec_async_all net c urls (world (env s))))
                   (trace (env s) ++ evs))
             (mkQueues
                (mkQueue []
                   (q_unfinished (queue_in (locals s))
                    - Z.of_nat (List.length urls)))
                (mkQueue
                   (q_items (queue_out (locals s))
                    ++ fst (spec_async_all net c urls (world (env s))))
                   (q_unfinished (queue_out (locals s))
                    + Z.of_nat (List.length urls)))))
      /\ posts evs =
           flat_map (fun u => repeat (_aiohttp_post_request c u)
                                (Z.to_nat (_max_retries c))) urls.
Proof.
  intros Hmax. induction urls as [|url urls IH]; intros fuel s Hfuel Hq Hunf.
  - exists []. destruct fuel as [|fuel]; [cbn in Hfuel; lia|].
    destruct s as [[w t] [[items unf] [oitems ounf]]]. cbn in Hq, Hunf. subst items.
    unfold async_get_details. cbn [while_else].
    unfold async_get_details_item, queue_in_get, queue_get, bind.
    cbn. rewrite !app_nil_r, Z.add_0_r, Z.sub_0_r. auto.
  - destruct fuel as [|fuel]; [cbn in Hfuel; lia|].
    destruct s as [[w t] [[items unf] [oitems ounf]]]. cbn in Hq, Hunf. subst items.
    assert (Hu : (unf <=? 0) = false) by lia.
    unfold async_get_details. cbn [while_else].
    unfold async_get_details_item at 1, queue_in_get, queue_get, bind at 1.
    cbn [locals env queue_in queue_out q_items q_unfinished map app].
    unfold bind at 1.
    match goal with |- context [_async_get_details_for_url net c url ?s1] =>
      destruct (async_get_details_for_url_run url s1 Hmax)
        as (evs1 & Hrun1 & Hp1 & _) end.
    rewrite Hrun1.
    unfold queue_out_put, queue_in_task_done, queue_task_done, queue_put;
      run_proc.
    rewrite Hu.
    match goal with |- context [while_else fuel _ _ _ ?s1] =>
      destruct (IH fuel s1) as (evs2 & Hrun2 & Hp2);
        [cbn in Hfuel; lia | reflexivity
        | cbn [locals queue_in q_unfinished List.length] in *; lia |] end.
    unfold async_get_details, ret in Hrun2. rewrite Hrun2.
    cbn [env locals world trace queue_in queue_out q_items q_unfinished
         spec_async_all].
    destruct (spec_async_all net c urls
                (world_after net (Z.to_nat (_max_retries c))
                   (_aiohttp_post_request c url) w)) as [vs w2].
    cbn [fst snd].
    exists (evs1 ++ evs2). split.
    + rewrite <- !app_assoc. cbn [app].
      replace (unf - 1 - Z.of_nat (List.length urls))
        with (unf - Z.of_nat (List.length (url :: urls)))
        by (cbn [List.length]; lia).
      replace (ounf + 1 + Z.of_nat (List.length urls))
        with (ounf + Z.of_nat (List.length (url :: urls)))
        by (cbn [List.length]; lia).
      reflexivity.
    + rewrite posts_app, Hp1, Hp2. reflexivity.
Qed.

(** X8. No sentinel, no return: a worker on an input queue that holds N
    URLs and no close sentinel puts its N items on the output queue and is
    then suspended for ever in [queue_in.get()], the queue empty and every
    URL marked done; [async_get_details] never returns by itself. *)
Theorem X8_worker_waits_without_sentinel (urls : list string) (fuel : nat)
    (s : St W Queues) :
  1 <= _max_retries c ->
  (List.length urls < fuel)%nat ->
  q_items (queue_in (locals s)) = map Some urls ->
  Z.of_nat (List.length urls) <= q_unfinished (queue_in (locals s)) ->
  exists outs s',
    async_get_details net fuel c s = Blocked s'
    /\ q_items (queue_in (locals s')) = []
    /\ q_unfinished (queue_in (locals s')) =
         q_unfinished (queue_in (locals s)) - Z.of_nat (List.length urls)
    /\ q_items (queue_out (locals s')) = q_items (queue_out (locals s)) ++ outs
    /\ List.length outs = List.length urls.
Proof.
  intros Hmax Hfuel Hq Hunf.
  destruct (async_get_details_blocks Hmax urls fuel s Hfuel Hq Hunf)
    as (evs & Hrun & _).
  eexists _, _. split; [exact Hrun|]. cbn.
  repeat split; auto using spec_async_all_length.
Qed.

(** X9. The calls of a worker: on an input queue that holds N URLs and then
    the close sentinel, [async_get_details] issues exactly [max_retries]
    requests for every URL, URL after URL in the order of the queue, each
    with that URL's request, and none for the sentinel or for what is
    behind it. *)
Theorem X9_worker_calls (urls : list string) (rest : list (option string))
    (fuel : nat) (s : St W Queues) :
  1 <= _max_retries c ->
  (List.length urls < fuel)%nat ->
  q_items (queue_in (locals s)) = map Some urls ++ None :: rest ->
  Z.of_nat (List.length urls) < q_unfinished (queue_in (locals s)) ->
  exists s',
    async_get_details net fuel c s = Ok tt s'
    /\ posts (trace (env s')) =
         posts (trace (env s))
           ++ flat_map (fun url => repeat (_aiohttp_post_request c url)
                                     (Z.to_nat (_max_retries c))) urls.
Proof.
  intros Hmax Hfuel Hq Hunf.
  destruct (async_get_details_run Hmax urls fuel s rest Hfuel Hq Hunf)
    as (evs & Hrun & Hp).
  eexists. split; [exact Hrun|]. cbn. now rewrite posts_app, Hp.
Qed.

(** ** More on the pool of workers *)

(** The number of workers of a pool never changes. *)
Lemma pool_steps_size (p p' : Pool W) :
  pool_steps net c p p' ->
  List.length (p_workers p') = List.length (p_workers p).
Proof.
  induction 1 as [p|p p' p'' [i Hstep] _ IH]; [reflexivity|].
  destruct (pool_step_at_inv _ _ _ Hstep)
    as (l1 & wk & l2 & e & q & wk' & Hws & _ & _ & ->).
  rewrite IH, Hws. cbn [p_workers]. now rewrite !length_app.
Qed.

(** A run that follows a schedule is a run of the pool. *)
Lemma pool_run_steps schedule (p : Pool W) :
  pool_steps net c p (pool_run net c schedule p).
Proof.
  revert p. induction schedule as [|i rest IH]; intros p; [constructor|].
  cbn [pool_run]. destruct (pool_step_at net c i p) as [p'|] eqn:Hstep.
  - econstructor; [exists i; exact Hstep|apply IH].
  - apply IH.
Qed.


(** The four kinds of step of a worker that does not crash. *)
Lemma worker_step_kinds (e : Env W) q wk e' q' wk' :
  1 <= _max_retries c ->
  worker_step net c e q wk = Some (e', q', wk') ->
  Z.of_nat (List.length (q_items (queue_in q))) + Z.of_nat (Nat.b2n (busy wk))
    <= q_unfinished (queue_in q) ->
  (wk = AtGet /\ exists url rest,
      q_items (queue_in q) = Some url :: rest
      /\ q' = mkQueues (mkQueue rest (q_unfinished (queue_in q))) (queue_out q)
      /\ wk' = AtPost url 0)
  \/ (wk = AtGet /\ exists rest,
        q_items (queue_in q) = None :: rest
        /\ q' = mkQueues (mkQueue rest (q_unfinished (queue_in q) - 1))
                  (queue_out q)
        /\ wk' = Exited)
  \/ (busy wk = true /\ busy wk' = true /\ q' = q)
  \/ (busy wk = true /\ wk' = AtGet /\ exists v,
        q' = mkQueues
               (mkQueue (q_items (queue_in q)) (q_unfinished (queue_in q) - 1))
               (queue_put v (queue_out q))).
Proof.
  intros Hmax Hstep Hunf.
  destruct wk as [|url a|url a v| |ex]; cbn [worker_step] in Hstep;
    try discriminate; pool_simpl.
  - unfold queue_get in Hstep.
    destruct (q_items (queue_in q)) as [|[url|] rest] eqn:Hq; [discriminate| |];
      pool_simpl.
    + rewrite loop_head_go in Hstep by lia. injection Hstep as <- <- <-.
      left. eauto 6.
    + unfold queue_task_done in Hstep. pool_simpl.
      assert (Hu : (q_unfinished (queue_in q) <=? 0) = false) by lia.
      rewrite Hu in Hstep. injection Hstep as <- <- <-.
      right. left. eauto 6.
  - destruct (net (_aiohttp_post_request c url) (world e)) as [o w'].
    destruct (Z.ltb_spec (a + 1) (_max_retries c)) as [Hlt|Hge].
    + injection Hstep as <- <- <-. right. right. left. auto.
    + rewrite loop_head_done in Hstep by lia.
      injection Hstep as <- <- <-. right. right. right. eauto 6.
  - destruct (Z.lt_ge_cases a (_max_retries c)) as [Hlt|Hge].
    + rewrite loop_head_go in Hstep by lia. injection Hstep as <- <- <-.
      right. right. left. auto.
    + rewrite loop_head_done in Hstep by lia.
      injection Hstep as <- <- <-. right. right. right. eauto 6.
Qed.

Lemma busy_is_live wk :
  busy wk = true ->
  live wk = true /\ crashed wk = false /\ is_exited wk = false.
Proof. destruct wk; cbn; intros; try discriminate; auto. Qed.

Lemma accounted_step n N (p p' : Pool W) :
  1 <= _max_retries c ->
  accounted n N p -> pool_step net c p p' -> accounted n N p'.
Proof.
  intros Hmax (urls & k & Hq & Hn & Hlive & Hcrash & Hsum & Hunf & Hex)
    [i Hstep].
  destruct (pool_step_at_inv _ _ _ Hstep)
    as (l1 & wk & l2 & e & q & wk' & Hws & _ & Hwk & ->).
  rewrite Hws in Hn, Hlive, Hcrash, Hsum, Hunf, Hex.
  rewrite count_app, count_cons in Hlive, Hcrash, Hsum, Hunf, Hex.
  rewrite length_app in Hn. cbn [List.length] in Hn.
  unfold accounted. cbn [p_queues p_workers].
  rewrite length_app. cbn [List.length].
  rewrite !count_app, !count_cons.
  destruct (worker_step_kinds _ _ _ _ _ _ Hmax Hwk ltac:(lia))
    as [(-> & url & rest & Hitems & -> & ->)
       |[(-> & rest & Hitems & -> & ->)
        |[(Hb & Hb' & ->)|(Hb & -> & v & ->)]]]; pool_simpl.
  - (* a URL is taken *)
    rewrite Hitems in Hq, Hunf.
    destruct urls as [|u urls]; [destruct k; discriminate|].
    cbn [map app] in Hq. injection Hq as -> ->.
    exists urls, k. cbn [is_exited Nat.b2n] in *.
    specialize (Hex ltac:(discriminate)).
    pool_simpl. repeat split; auto; lia.
  - (* a sentinel is taken *)
    rewrite Hitems in Hq, Hunf.
    destruct urls as [|u urls]; [|discriminate].
    destruct k as [|k]; [discriminate|]. cbn [map app repeat] in Hq.
    injection Hq as ->.
    exists [], k. cbn [is_exited Nat.b2n] in *. pool_simpl.
    repeat split; auto; try lia. intros H. now contradiction H.
  - (* the worker stays on its URL *)
    destruct (busy_is_live _ Hb) as (Hl & Hc & Hx).
    destruct (busy_is_live _ Hb') as (Hl' & Hc' & Hx').
    exists urls, k. rewrite Hb, Hl, Hc, Hx in *. rewrite Hb', Hl', Hc', Hx'.
    repeat split; auto.
  - (* the worker is done with its URL *)
    destruct (busy_is_live _ Hb) as (Hl & Hc & Hx).
    exists urls, k. rewrite Hb, Hl, Hc, Hx in *.
    unfold queue_put. pool_simpl. rewrite length_app. cbn [List.length Nat.b2n] in *.
    repeat split; auto; lia.
Qed.

Lemma accounted_steps n N (p p' : Pool W) :
  1 <= _max_retries c ->
  accounted n N p -> pool_steps net c p p' -> accounted n N p'.
Proof.
  intros Hmax Hinv Hsteps. induction Hsteps as [p|p p' p'' Hstep _ IH];
    eauto using accounted_step.
Qed.

Lemma accounted_closed n N (p : Pool W) :
  accounted n N p -> closed_per_worker p.
Proof.
  intros (urls & k & Hq & Hn & Hlive & Hcrash & Hsum & Hunf & Hex).
  exists urls, k. repeat split; auto; lia.
Qed.

Lemma pool_of_accounted (w : W) n urls :
  accounted n (List.length urls)
    (pool_of w n (map Some urls ++ repeat None n)).
Proof.
  exists urls, n. cbn [pool_of p_queues p_workers queue_in queue_out
                        q_items q_unfinished].
  rewrite !count_repeat, repeat_length. cbn. repeat split; lia.
Qed.

(** X11. Accounting in a pool: with [n >= 1] workers started on an input
    queue that holds N URLs and then [n] close sentinels, never are there
    more items on the output queue than URLs, and whenever the pool has
    come to a stop, however its workers were interleaved, the output queue
    holds exactly N items, the input queue is empty with every item marked
    done (a [join()] on it returns), and all workers have exited. *)
Theorem X11_pool_accounting (w : W) (n : nat) (urls : list string)
    (p : Pool W) :
  1 <= _max_retries c ->
  (1 <= n)%nat ->
  pool_steps net c (pool_of w n (map Some urls ++ repeat None n)) p ->
  (List.length (q_items (queue_out (p_queues p))) <= List.length urls)%nat
  /\ (stuck net c p ->
      List.length (q_items (queue_out (p_queues p))) = List.length urls
      /\ q_items (queue_in (p_queues p)) = []
      /\ q_unfinished (queue_in (p_queues p)) = 0
      /\ Forall (fun wk => wk = Exited) (p_workers p)).
Proof.
  intros Hmax Hn Hsteps.
  pose proof (accounted_steps _ _ _ _ Hmax (pool_of_accounted w n urls) Hsteps)
    as Hacc.
  pose proof (accounted_closed _ _ _ Hacc) as Hclosed.
  destruct Hacc as (us & k & Hq & Hsize & Hlive & Hcrash & Hsum & Hunf & Hex).
  split; [lia|]. intros Hstuck.
  pose proof (closed_per_worker_stuck _ Hclosed Hstuck) as Hall.
  assert (Hcounts : count live (p_workers p) = 0%nat
                    /\ count busy (p_workers p) = 0%nat
                    /\ count is_exited (p_workers p) = List.length (p_workers p)).
  { clear - Hall. induction Hall as [|wk ws -> _ IH]; [auto|].
    rewrite !count_cons. cbn. destruct IH as (-> & -> & ->). auto. }
  destruct Hcounts as (Hl0 & Hb0 & Hx).
  assert (Hus : us = []).
  { destruct us as [|u us]; [reflexivity|].
    specialize (Hex ltac:(discriminate)). lia. }
  subst us. rewrite Hl0 in Hlive. subst k. cbn in Hq.
  rewrite Hq in Hunf. cbn in Hsum, Hunf.
  repeat split; auto; lia.
Qed.

Lemma async_value_tagged_from items url o :
  In (Some url) items -> tagged_from items (async_value url o).
Proof.
  intros Hin d Hv. exists url. split; [exact Hin|].
  eapply async_value_tagged; exact Hv.
Qed.

Lemma loop_head_well_tagged items (e : Env W) q url attempts product e' q' wk' :
  loop_head c e q url attempts product = (e', q', wk') ->
  In (Some url) items ->
  (forall v, product = Some v -> tagged_from items v) ->
  Forall (tagged_from items) (q_items (queue_out q)) ->
  incl (q_items (queue_in q)) items ->
  Forall (tagged_from items) (q_items (queue_out q'))
  /\ incl (q_items (queue_in q')) items
  /\ worker_from items wk'.
Proof.
  unfold loop_head. intros Hhead Hin Hprod Hout Hq.
  destruct (attempts <? _max_retries c).
  - injection Hhead as <- <- <-. cbn. auto.
  - destruct product as [v|].
    + assert (Hout' : Forall (tagged_from items)
                        (q_items (queue_put v (queue_out q)))).
      { unfold queue_put. cbn. apply Forall_app. split; [exact Hout|].
        constructor; [apply Hprod; reflexivity|constructor]. }
      unfold queue_task_done in Hhead.
      destruct (q_unfinished (queue_in q) <=? 0);
        injection Hhead as <- <- <-; cbn [queue_in queue_out q_items worker_from];
        auto.
    + injection Hhead as <- <- <-. cbn. auto.
Qed.

Lemma well_tagged_step items (p p' : Pool W) :
  well_tagged items p -> pool_step net c p p' -> well_tagged items p'.
Proof.
  intros (Hout & Hq & Hws) [i Hstep].
  destruct (pool_step_at_inv _ _ _ Hstep)
    as (l1 & wk & l2 & e & q & wk' & Hw & _ & Hwk & ->).
  rewrite Hw in Hws. apply Forall_app in Hws. destruct Hws as [Hl1 Hrest].
  inversion Hrest as [|? ? Hwk0 Hl2]; subst.
  assert (Hgoal : Forall (tagged_from items) (q_items (queue_out q))
                  /\ incl (q_items (queue_in q)) items
                  /\ worker_from items wk').
  { destruct wk as [|url a|url a v| |ex]; cbn [worker_step] in Hwk;
      try discriminate.
    - unfold queue_get in Hwk.
      destruct (q_items (queue_in (p_queues p))) as [|[url|] rest] eqn:Hitems;
        [discriminate| |].
      + injection Hwk as Hhead.
        eapply loop_head_well_tagged in Hhead; eauto.
        * apply Hq. now left.
        * discriminate.
        * cbn. intros x Hx. apply Hq. now right.
      + unfold queue_task_done in Hwk. cbn in Hwk.
        destruct (q_unfinished (queue_in (p_queues p)) <=? 0);
          injection Hwk as <- <- <-; cbn; repeat split; auto;
          intros x Hx; apply Hq; now right.
    - cbn in Hwk0.
      destruct (net (_aiohttp_post_request c url) (world (p_env p))) as [o w'].
      destruct (a + 1 <? _max_retries c).
      + injection Hwk as <- <- <-. cbn.
        auto using async_value_tagged_from.
      + injection Hwk as Hhead.
        eapply loop_head_well_tagged in Hhead; eauto.
        intros v [= <-]. now apply async_value_tagged_from.
    - cbn in Hwk0. destruct Hwk0 as [Hin Hv].
      injection Hwk as Hhead.
      eapply loop_head_well_tagged in Hhead; eauto.
      intros v0 [= <-]. exact Hv. }
  destruct Hgoal as (Hout' & Hq' & Hwk').
  repeat split; cbn [p_queues p_workers]; auto.
  apply Forall_app. split; [exact Hl1|]. now constructor.
Qed.

Lemma well_tagged_steps items (p p' : Pool W) :
  well_tagged items p -> pool_steps net c p p' -> well_tagged items p'.
Proof.
  intros Hinv Hsteps. induction Hsteps as [p|p p' p'' Hstep _ IH];
    eauto using well_tagged_step.
Qed.

(** X12. Correlation in a pool: whichever worker handles which URL and
    however the workers are interleaved, every record that a pool puts on
    the output queue carries for ["url"] one of the URLs that were in the
    input queue. *)
Theorem X12_pool_records_tagged (w : W) (n : nat)
    (items : list (option string)) (p : Pool W) :
  pool_steps net c (pool_of w n items) p ->
  Forall (fun v =>
            forall d, v = JObj d ->
                      exists url, In (Some url) items
                                  /\ dict_get "url" d = Some (JStr url))
    (q_items (queue_out (p_queues p))).
Proof.
  intros Hsteps.
  assert (H0 : well_tagged items (pool_of w n items)).
  { unfold well_tagged, pool_of. pool_simpl.
    split; [constructor|]. split; [apply incl_refl|].
    apply Forall_forall. intros wk Hin. apply repeat_spec in Hin.
    now subst wk. }
  destruct (well_tagged_steps _ _ _ H0 Hsteps) as (Hout & _).
  exact Hout.
Qed.

Lemma loop_head_never_exits (e : Env W) q url attempts product e' q' wk' :
  loop_head c e q url attempts product = (e', q', wk') ->
  is_exited wk' = false /\ q_items (queue_in q') = q_items (queue_in q).
Proof.
  unfold loop_head. destruct (attempts <? _max_retries c).
  - intros [= <- <- <-]. auto.
  - destruct product as [v|]; [unfold queue_task_done;
      destruct (q_unfinished (queue_in q) <=? 0)|];
      intros [= <- <- <-]; auto.
Qed.

Lemma worker_step_sentinels (e : Env W) q wk e' q' wk' :
  worker_step net c e q wk = Some (e', q', wk') ->
  (Nat.b2n (is_exited wk') + count is_sentinel (q_items (queue_in q'))
   <= Nat.b2n (is_exited wk) + count is_sentinel (q_items (queue_in q)))%nat.
Proof.
  intros Hstep.
  destruct wk as [|url a|url a v| |ex]; cbn [worker_step] in Hstep;
    try discriminate.
  - unfold queue_get in Hstep.
    destruct (q_items (queue_in q)) as [|[url|] rest] eqn:Hq; [discriminate| |].
    + injection Hstep as Hhead.
      destruct (loop_head_never_exits _ _ _ _ _ _ _ _ Hhead) as [-> ->].
      cbn [queue_in q_items]. rewrite count_cons. cbn. lia.
    + unfold queue_task_done in Hstep. cbn in Hstep.
      destruct (q_unfinished (queue_in q) <=? 0);
        injection Hstep as <- <- <-; cbn [queue_in q_items];
        rewrite count_cons; cbn; lia.
  - destruct (net (_aiohttp_post_request c url) (world e)) as [o w'].
    destruct (a + 1 <? _max_retries c).
    + injection Hstep as <- <- <-. cbn. lia.
    + injection Hstep as Hhead.
      destruct (loop_head_never_exits _ _ _ _ _ _ _ _ Hhead) as [-> ->].
      cbn. lia.
  - injection Hstep as Hhead.
    destruct (loop_head_never_exits _ _ _ _ _ _ _ _ Hhead) as [-> ->].
    cbn. lia.
Qed.

Lemma pool_steps_sentinels (p p' : Pool W) :
  pool_steps net c p p' ->
  (count is_exited (p_workers p')
   + count is_sentinel (q_items (queue_in (p_queues p')))
   <= count is_exited (p_workers p)
      + count is_sentinel (q_items (queue_in (p_queues p))))%nat.
Proof.
  induction 1 as [p|p p' p'' [i Hstep] _ IH]; [lia|].
  destruct (pool_step_at_inv _ _ _ Hstep)
    as (l1 & wk & l2 & e & q & wk' & Hws & _ & Hwk & ->).
  apply worker_step_sentinels in Hwk.
  rewrite Hws. cbn [p_queues p_workers] in IH.
  rewrite !count_app, !count_cons in *. lia.
Qed.

(** X13. One sentinel stops at most one worker: along every run of a pool,
    whatever the input queue held, the number of workers that have exited
    never exceeds the number of close sentinels that were in the queue.  A
    pool fed fewer sentinels than it has workers never shuts down
    completely. *)
Theorem X13_exits_bounded_by_sentinels (w : W) (n : nat)
    (items : list (option string)) (p : Pool W) :
  pool_steps net c (pool_of w n items) p ->
  (count is_exited (p_workers p) <= count is_sentinel items)%nat
  /\ ((count is_sentinel items < n)%nat ->
      exists wk, In wk (p_workers p) /\ wk <> Exited).
Proof.
  intros Hsteps. pose proof (pool_steps_sentinels _ _ Hsteps) as Hle.
  pose proof (pool_steps_size _ _ Hsteps) as Hsize.
  unfold pool_of in Hle, Hsize. pool_simpl.
  rewrite count_repeat in Hle. cbn [is_exited] in Hle.
  rewrite repeat_length in Hsize.
  split; [lia|]. intros Hfew.
  assert (Hex : (count is_exited (p_workers p) < List.length (p_workers p))%nat)
    by lia.
  clear - Hex. induction (p_workers p) as [|wk ws IH]; [cbn in Hex; lia|].
  rewrite count_cons in Hex. cbn [List.length] in Hex.
  destruct wk; cbn [is_exited Nat.b2n] in Hex;
    try (eexists; split; [now left|discriminate]).
  destruct IH as (wk & Hin & Hne); [lia|].
  exists wk. split; [now right|exact Hne].
Qed.

Lemma spec_calls_first_success n url w :
  (forall w0, seq_record url (fst (net (get_details_request c url) w0)) <> None) ->
  spec_calls net c (S n) url w = 1%nat
  /\ fst (spec_fetch_url net c (S n) url w) <> None.
Proof.
  intros Hok. cbn. specialize (Hok w).
  destruct (net (get_details_request c url) w) as [o w']. cbn in Hok.
  destruct (seq_record url o); [split; [reflexivity|discriminate]|].
  now contradiction Hok.
Qed.

Lemma batch_all_succeed urls w :
  1 <= _max_retries c ->
  Forall (fun url => forall w0,
            seq_record url (fst (net (get_details_request c url) w0)) <> None)
    urls ->
  spec_call_counts net c urls w = repeat 1%nat (List.length urls)
  /\ succeeded (fst (spec_fetch_all net c urls w)) = urls.
Proof.
  intros Hmax Hall. revert w.
  induction Hall as [|url urls Hurl Hall IH]; intros w; [split; reflexivity|].
  cbn [spec_call_counts spec_fetch_all List.length repeat].
  destruct (Z.to_nat (_max_retries c)) as [|n] eqn:Hn; [lia|].
  destruct (spec_calls_first_success n url w Hurl) as [-> Hsome].
  destruct (spec_fetch_url net c (S n) url w) as [r w1]. cbn [fst snd] in *.
  destruct (IH w1) as [-> Hs].
  destruct (spec_fetch_all net c urls w1) as [rs w2]. cbn [fst snd] in *.
  split; [reflexivity|].
  unfold succeeded in *. cbn [flat_map snd fst].
  destruct r; [|now contradiction Hsome]. cbn. now rewrite Hs.
Qed.

(** X14. Success stops the retrying: when every call for the URLs of a
    batch succeeds, [get_details] makes exactly one call per URL, in the
    order of the batch, waits no delay at all, and returns one record per
    URL, each tagged with its URL, in that order. *)
Theorem X14_one_call_when_calls_succeed {L} (urls : list string)
    (s : St W L) :
  1 <= _max_retries c ->
  0 <= _retry_delay c ->
  Forall (fun url => forall w,
            seq_record url (fst (net (get_details_request c url) w)) <> None)
    urls ->
  exists products s',
    get_details net c urls s = Ok products s'
    /\ posts (trace (env s')) =
         posts (trace (env s)) ++ map (get_details_request c) urls
    /\ sleeps (trace (env s')) = sleeps (trace (env s))
    /\ Forall2 tagged urls products.
Proof.
  intros Hmax Hd Hall.
  eexists _, _. split; [apply get_details_trace; exact Hd|].
  destruct (batch_events_calls urls (world (env s))) as [Hp Hs].
  destruct (batch_all_succeed urls (world (env s)) Hmax Hall) as [Hc Hsucc].
  pose proof (spec_fetch_all_tagged urls (world (env s))) as Htag.
  rewrite Hsucc in Htag. rewrite Hc in Hp, Hs.
  cbn [env trace].
  change (EvLog INFO (MsgFetching (List.length urls)) :: ?l)
    with ([EvLog INFO (MsgFetching (List.length urls))] ++ l).
  rewrite !posts_app, !sleeps_app, Hp, Hs. cbn [posts sleeps app].
  rewrite !app_nil_r. split; [|split; [|exact Htag]].
  - f_equal. clear. induction urls as [|u urls IH]; [reflexivity|].
    cbn. now rewrite IH.
  - rewrite <- (app_nil_r (sleeps (trace (env s)))) at 2. f_equal.
    clear. induction (List.length urls) as [|n IHn]; [reflexivity|].
    cbn. exact IHn.
Qed.

End Properties.

(** C8, on the code: the limit given to the constructor is stored and never
    read.  With a limit of one request per host and two workers on the
    queue, both have their request in flight after one step each. *)
Theorem C8_limit_not_enforced :
  let p := pool_run (constantly (http 200 (JObj demo_body))) client_limit_one
             [0%nat; 1%nat]
             (pool_of tt 2 [Some demo_url; Some other_url; None; None]) in
  _async_limit_per_host client_limit_one = 1
  /\ p_workers p = [AtPost demo_url 0; AtPost other_url 0]
  /\ in_flight p = 2%nat.
Proof. repeat split. Qed.

(** C7 fails on the code: of two workers waiting on a queue that holds one
    close sentinel, the one that takes it exits and leaves the queue empty;
    the other stays suspended in [get] and nothing can move any more. *)
Lemma C7_sentinel_not_propagated :
  let net := constantly (http 200 (JObj demo_body)) in
  let c := default_client "key" in
  exists p1,
    pool_step_at net c 0 (pool_of tt 2 [None]) = Some p1
    /\ q_items (queue_in (p_queues p1)) = []
    /\ p_workers p1 = [Exited; AtGet]
    /\ stuck net c p1.
Proof.
  eexists. split; [reflexivity|]. repeat split.
  intros [|[|[|i]]]; reflexivity.
Qed.

(** C6, on the code: the sequential path passes [timeout=10] to every call,
    the concurrent path passes no timeout at all.  Both count the timed-out
    call as their one failed attempt. *)
Theorem C6_concurrent_call_without_timeout :
  let net := constantly (Raised TimeoutError) in
  let c := default_client "key" in
  (exists s',
     get_details net c [demo_url] (start tt) = Ok [] s'
     /\ map req_timeout (posts (trace (env s'))) = [Some _requests_timeout])
  /\ (exists s',
        _async_get_details_for_url net c demo_url (start tt) = Ok JNull s'
        /\ map req_timeout (posts (trace (env s'))) = [None]).
Proof. split; eexists; split; vm_compute; reflexivity. Qed.


(** ** The claims at concrete inputs *)


(** C2 with two attempts and HTTP 500 for ever: two calls in either path. *)
Lemma C2_two_attempts_two_calls :
  let net := constantly (http 500 JNull) in
  let c := client_two_attempts in
  (exists s',
     get_details net c [demo_url] (start tt) = Ok [] s'
     /\ List.length (posts (trace (env s'))) = 2%nat)
  /\ (exists v s',
        _async_get_details_for_url net c demo_url (start tt) = Ok v s'
        /\ List.length (posts (trace (env s'))) = 2%nat).
Proof.
  intros net c.
  destruct (C2_retry_bound unit net c (L := unit) [demo_url] demo_url (start tt))
    as [(s1 & Hrun1 & Hp1) (v & s2 & Hrun2 & Hp2)];
    [cbn; lia | cbn; lia | repeat constructor |].
  split.
  - exists s1. rewrite Hp1. split; [exact Hrun1|reflexivity].
  - exists v, s2. rewrite Hp2. split; [exact Hrun2|reflexivity].
Defined.




(** C7 as amended, on two workers, one URL and two sentinels. *)
Lemma C7_two_workers_two_sentinels :
  let net := constantly (http 200 (JObj demo_body)) in
  let c := default_client "key" in
  exists p,
    pool_steps net c (pool_of tt 2 [Some demo_url; None; None]) p
    /\ stuck net c p
    /\ Forall (fun wk => wk = Exited) (p_workers p).
Proof.
  intros net c.
  destruct (C7_sentinel_stops_one_worker unit net c ltac:(cbn; lia))
    as [_ Hpool].
  destruct (Hpool tt 2%nat [demo_url]) as (_ & (p & Hsteps & Hstuck) & Hall).
  exists p. repeat split; auto.
Defined.

(** C9 with two attempts and a first call that succeeds. *)
Lemma C9_success_then_delay :
  let net := constantly (http 200 (JObj demo_body)) in
  let c := client_two_attempts in
  (exists s',
     _async_get_details_attempt net c demo_url (start_for_url tt)
     = Ok Continue s'
     /\ fu_attempts (locals s') = 1
     /\ sleeps (trace (env s')) = [0])
  /\ (exists s',
        get_details_attempt net c demo_url (start_get_details tt)
        = Ok Break s'
        /\ gd_attempts (locals s') = 0
        /\ sleeps (trace (env s')) = []).
Proof.
  intros net c.
  destruct (C9_concurrent_success_still_counts unit net c (L := unit) demo_url
              (start_for_url tt) (start_get_details tt) (start tt)
              (mkResponse 200 "" (Some (JObj demo_body)))
              (mkResponse 200 "" (Some (JObj demo_body)))
              demo_body demo_body tt tt)
    as ((s1 & Hrun1 & Ha1 & _ & Hs1) & _ & (s2 & Hrun2 & Ha2 & Hs2));
    [cbn; lia | reflexivity | cbn; lia | reflexivity
     | reflexivity | reflexivity | reflexivity |].
  split.
  - exists s1. repeat split; assumption.
  - exists s2. repeat split; assumption.
Defined.

(** C10 with two attempts: a record first, HTTP 500 last, [None] returned. *)
Lemma C10_success_then_failure :
  let w := [http 200 (JObj demo_body); http 500 JNull] in
  exists s',
    _async_get_details_for_url scripted client_two_attempts demo_url (start w)
    = Ok JNull s'.
Proof.
  intros w.
  destruct (C10_last_attempt_wins (list Outcome) scripted client_two_attempts
              (L := unit) demo_url (start w) ltac:(cbn; lia))
    as (s' & _ & Hnone).
  exists s'. apply Hnone. intros r [= <-]. left. cbn. lia.
Defined.

(** ** The scenarios of the specification *)

(** Scenario A: one URL, HTTP 200 with a record on the first attempt. *)
Example scenario_A :
  exists s',
    get_details (constantly (http 200 (JObj [("name", JStr "x")])))
      (default_client "key") [demo_url] (start tt)
    = Ok [JObj [("name", JStr "x"); ("url", JStr demo_url)]] s'.
Proof. eexists. vm_compute. reflexivity. Qed.

(** Scenario B: two attempts, no delay, HTTP 500 then HTTP 200. *)
Example scenario_B :
  exists s',
    get_details scripted client_two_attempts [demo_url]
      (start [http 500 JNull; http 200 (JObj [("name", JStr "y")])])
    = Ok [JObj [("name", JStr "y"); ("url", JStr demo_url)]] s'
    /\ List.length (posts (trace (env s'))) = 2%nat.
Proof. eexists. split; vm_compute; reflexivity. Qed.

(** Scenario C: one attempt, HTTP 503 always. *)
Example scenario_C :
  (exists s',
     get_details (constantly (http 503 JNull)) (default_client "key")
       [demo_url] (start tt) = Ok [] s')
  /\ (exists s',
        async_get_details (constantly (http 503 JNull)) 2
          (default_client "key") (start_queues tt [Some demo_url; None])
        = Ok tt s'
        /\ q_items (queue_out (locals s')) = [JNull]).
Proof. split; eexists; [|split]; vm_compute; reflexivity. Qed.

(** Scenario D: ten URLs and the close sentinels, three workers. *)
Example scenario_D :
  let p := pool_run (constantly (http 200 (JObj [("name", JStr "x")])))
             (default_client "key") (round_robin 3 9)
             (pool_of tt 3 (map Some ten_urls ++ repeat None 3)) in
  List.length (q_items (queue_out (p_queues p))) = 10%nat
  /\ p_workers p = [Exited; Exited; Exited]
  /\ q_unfinished (queue_in (p_queues p)) = 0.
Proof. vm_compute. repeat split. Qed.

(** ** What the hypotheses of the claims keep out *)

(** A negative retry delay: [time.sleep] raises inside the [try], the
    handler counts the attempt a second time and raises again on its own
    sleep, and [get_details] ends with [ValueError] after a single call. *)
Example negative_delay_raises :
  exists s',
    get_details (constantly (http 500 JNull)) (__init__ "key" 3 (-1) 5)
      [demo_url] (start tt) = Raise ValueError s'
    /\ List.length (posts (trace (env s'))) = 1%nat.
Proof. eexists. split; vm_compute; reflexivity. Qed.

(** No attempt allowed: the worker takes the URL and dies on the unbound
    [product], with nothing put on the output queue. *)
Example no_attempt_crashes_worker :
  exists s',
    async_get_details (constantly (http 200 (JObj demo_body))) 2
      (__init__ "key" 0 10 5) (start_queues tt [Some demo_url; None])
    = Raise UnboundLocalError s'
    /\ q_items (queue_out (locals s')) = []
    /\ q_items (queue_in (locals s')) = [None].
Proof. eexists. repeat split; vm_compute; reflexivity. Qed.

(** A body that parses but is no record: the sequential path counts a
    failed attempt, the concurrent path hands the body on as it came. *)
Example array_body :
  (exists s',
     get_details (constantly (http 200 (JArr []))) (default_client "key")
       [demo_url] (start tt) = Ok [] s')
  /\ (exists s',
        _async_get_details_for_url (constantly (http 200 (JArr [])))
          (default_client "key") demo_url (start tt) = Ok (JArr []) s').
Proof. split; eexists; vm_compute; reflexivity. Qed.

(** ** The further properties at concrete inputs *)


(** X2 on the same batch: two updates of the progress bar. *)
Lemma X2_two_urls_two_updates :
  let s := start [http 500 JNull; http 200 (JObj demo_body);
                  http 404 JNull; http 404 JNull] in
  exists products s',
    get_details scripted client_two_attempts [demo_url; other_url] s
    = Ok products s'
    /\ progress (trace (env s')) = [1; 1].
Proof.
  intros s.
  exact (X2_progress_once_per_url (list Outcome) scripted client_two_attempts
           (L := unit) [demo_url; other_url] s ltac:(cbn; lia)).
Defined.

(** X3 on the same batch: one URL logged as fetched, one as failed. *)
Lemma X3_one_fetched_one_failed :
  let s := start [http 500 JNull; http 200 (JObj demo_body);
                  http 404 JNull; http 404 JNull] in
  exists outs s' evs,
    get_details scripted client_two_attempts [demo_url; other_url] s
    = Ok (records outs) s'
    /\ map fst outs = [demo_url; other_url]
    /\ trace (env s') =
         EvLog INFO (MsgFetching 2)
         :: evs ++ [EvLog INFO (MsgFetched (List.length (records outs)))]
    /\ fetched_urls evs = succeeded outs
    /\ failed_urls evs = exhausted outs.
Proof.
  intros s.
  exact (X3_outcome_logging (list Outcome) scripted client_two_attempts
           (L := unit) [demo_url; other_url] s ltac:(cbn; lia)).
Defined.

(** X5 on a body with a name and a URL of its own. *)
Lemma X5_body_kept :
  let net := constantly (http 200 (JObj demo_body)) in
  let c := default_client "key" in
  Forall (fun rec =>
            exists url w0 r body,
              In url [demo_url]
              /\ fst (net (get_details_request c url) w0) = Responded r
              /\ status_code r = 200
              /\ json_body r = Some (JObj body)
              /\ injected url body rec)
    [JObj [("name", JStr "x"); ("url", JStr demo_url)]].
Proof.
  intros net c.
  destruct (X5_record_provenance unit net c (L := unit) [demo_url] demo_url
              (start tt) ltac:(cbn; lia)) as [Hseq _].
  eapply Hseq. vm_compute. reflexivity.
Defined.

(** X6 on a client that allows no attempt. *)
Lemma X6_zero_attempts :
  let net := constantly (http 200 (JObj demo_body)) in
  let c := __init__ "key" 0 10 5 in
  (exists s',
     get_details net c [demo_url; other_url] (start tt) = Ok [] s'
     /\ world (env s') = tt
     /\ posts (trace (env s')) = []
     /\ failed_urls (trace (env s')) = [demo_url; other_url])
  /\ _async_get_details_for_url net c demo_url (start tt)
     = Raise UnboundLocalError (start tt).
Proof.
  intros net c.
  destruct (X6_no_attempt_allowed unit net c (L := unit)
              [demo_url; other_url] demo_url (start tt) ltac:(cbn; lia))
    as (Hseq & Hasync & _).
  split; [exact Hseq|exact Hasync].
Defined.

(** X7 with three attempts allowed and a delay of -1. *)
Lemma X7_delay_minus_one :
  let net := constantly (http 500 JNull) in
  let c := __init__ "key" 3 (-1) 5 in
  exists s',
    get_details net c [demo_url] (start tt) = Raise ValueError s'
    /\ posts (trace (env s')) = [get_details_request c demo_url]
    /\ sleeps (trace (env s')) = [].
Proof.
  intros net c.
  exact (X7_negative_delay_one_call unit net c (L := unit) demo_url (start tt)
           (http 500 JNull) tt ltac:(cbn; lia) ltac:(cbn; lia)
           eq_refl eq_refl).
Defined.

(** X8 on two URLs and no sentinel. *)
Lemma X8_two_urls_no_sentinel :
  let net := constantly (http 503 JNull) in
  let s := start_queues tt [Some demo_url; Some other_url] in
  exists outs s',
    async_get_details net 3 (default_client "key") s = Blocked s'
    /\ q_items (queue_in (locals s')) = []
    /\ q_unfinished (queue_in (locals s')) = 0
    /\ q_items (queue_out (locals s')) = outs
    /\ List.length outs = 2%nat.
Proof.
  intros net s.
  exact (X8_worker_waits_without_sentinel unit net (default_client "key")
           [demo_url; other_url] 3 s
           ltac:(cbn; lia) ltac:(cbn; lia) eq_refl ltac:(cbn; lia)).
Defined.

(** X9 on two URLs and the sentinel, two attempts each. *)
Lemma X9_two_urls_four_calls :
  let net := constantly (http 503 JNull) in
  let c := client_two_attempts in
  let s := start_queues tt [Some demo_url; Some other_url; None] in
  exists s',
    async_get_details net 3 c s = Ok tt s'
    /\ posts (trace (env s')) =
         [_aiohttp_post_request c demo_url; _aiohttp_post_request c demo_url;
          _aiohttp_post_request c other_url; _aiohttp_post_request c other_url].
Proof.
  intros net c s.
  exact (X9_worker_calls unit net c [demo_url; other_url] [] 3 s
           ltac:(cbn; lia) ltac:(cbn; lia) eq_refl ltac:(cbn; lia)).
Defined.


(** X11 on two workers, two URLs and two sentinels, run round robin. *)
Lemma X11_two_workers_two_urls :
  let net := constantly (http 200 (JObj demo_body)) in
  let c := default_client "key" in
  let p := pool_run net c (round_robin 2 4)
             (pool_of tt 2 [Some demo_url; Some other_url; None; None]) in
  List.length (q_items (queue_out (p_queues p))) = 2%nat
  /\ q_items (queue_in (p_queues p)) = []
  /\ q_unfinished (queue_in (p_queues p)) = 0
  /\ Forall (fun wk => wk = Exited) (p_workers p).
Proof.
  intros net c p.
  destruct (X11_pool_accounting unit net c tt 2 [demo_url; other_url] p
              ltac:(cbn; lia) ltac:(lia)
              (pool_run_steps unit net c (round_robin 2 4) _))
    as [_ Hstuck].
  apply Hstuck. intros [|[|[|i]]]; vm_compute; reflexivity.
Defined.

(** X12 on the same run. *)
Lemma X12_two_workers_records :
  let net := constantly (http 200 (JObj demo_body)) in
  let c := default_client "key" in
  let items := [Some demo_url; Some other_url; None; None] in
  Forall (fun v =>
            forall d, v = JObj d ->
                      exists url, In (Some url) items
                                  /\ dict_get "url" d = Some (JStr url))
    (q_items (queue_out (p_queues
       (pool_run net c (round_robin 2 4) (pool_of tt 2 items))))).
Proof.
  intros net c items.
  exact (X12_pool_records_tagged unit net c tt 2 items _
           (pool_run_steps unit net c (round_robin 2 4) _)).
Defined.

(** X13 on two workers and one sentinel. *)
Lemma X13_two_workers_one_sentinel :
  let net := constantly (http 200 (JObj demo_body)) in
  let c := default_client "key" in
  let p := pool_run net c (round_robin 2 4)
             (pool_of tt 2 [Some demo_url; None]) in
  (count is_exited (p_workers p) <= 1)%nat
  /\ exists wk, In wk (p_workers p) /\ wk <> Exited.
Proof.
  intros net c p.
  destruct (X13_exits_bounded_by_sentinels unit net c tt 2
              [Some demo_url; None] p
              (pool_run_steps unit net c (round_robin 2 4) _))
    as [Hle Hsome].
  split; [exact Hle|]. apply Hsome. cbn. lia.
Defined.

(** X14 on two URLs that are fetched at the first call. *)
Lemma X14_two_urls_two_calls :
  let net := constantly (http 200 (JObj demo_body)) in
  let c := client_two_attempts in
  exists products s',
    get_details net c [demo_url; other_url] (start tt) = Ok products s'
    /\ posts (trace (env s')) =
         [get_details_request c demo_url; get_details_request c other_url]
    /\ sleeps (trace (env s')) = []
    /\ Forall2 tagged [demo_url; other_url] products.
Proof.
  intros net c.
  exact (X14_one_call_when_calls_succeed unit net c (L := unit)
           [demo_url; other_url] (start tt) ltac:(cbn; lia) ltac:(cbn; lia)
           ltac:(repeat constructor; intros w; cbn; discriminate)).
Defined.
